(** * reactionable-cli: the import-aware merge engine of [TypescriptFile]

    A shallow embedding of [TypescriptFile] (parse, add and remove imports,
    serialize) and the properties its specification states about it.

    Strings are lists of characters as in [Stdlib.Strings.String]; a JS
    object used as a dictionary is a [gmap string string]; the arrays
    [this.imports] and [this.declarations] are lists, optional as the
    fields are in the class. *)

From Stdlib Require Import ZArith Ascii String List Sorting.Sorted Sorting.Permutation.
From stdpp Require Import base option list sorting gmap strings fin_maps.

Local Open Scope string_scope.
Local Open Scope list_scope.
Local Open Scope Z_scope.

(** ** JavaScript strings: the few built-ins the class calls *)

(** [Array.prototype.join] on an array of strings. *)
Fixpoint join (sep : string) (parts : list string) : string :=
  match parts with
  | [] => EmptyString
  | [x] => x
  | x :: rest => x +:+ sep +:+ join sep rest
  end.

(** [/^\./.exec(s)] is truthy exactly when the first character is a dot. *)
Definition starts_with_dot (s : string) : bool :=
  match s with
  | String c _ => Ascii.eqb c "."%char
  | EmptyString => false
  end.

(** [String.prototype.split] with the one-character separator [sep]: the
    result always has one segment more than there are separators. *)
Fixpoint split (sep : ascii) (s : string) : list string :=
  match s with
  | EmptyString => [EmptyString]
  | String c rest =>
      if Ascii.eqb c sep then EmptyString :: split sep rest
      else match split sep rest with
           | [] => [String c EmptyString]
           | seg :: segs => String c seg :: segs
           end
  end.

(** White space and line terminators of the ASCII range, as
    [String.prototype.trim] strips them from both ends (the wider ones it
    also strips are not single characters of these strings). *)
Definition is_space (c : ascii) : bool :=
  let n := nat_of_ascii c in
  ((9 <=? n)%nat && (n <=? 13)%nat) || (n =? 32)%nat.

Fixpoint trimStart (s : string) : string :=
  match s with
  | String c rest => if is_space c then trimStart rest else s
  | EmptyString => EmptyString
  end.

Fixpoint trimEnd (s : string) : string :=
  match s with
  | EmptyString => EmptyString
  | String c rest =>
      match trimEnd rest with
      | EmptyString => if is_space c then EmptyString else String c EmptyString
      | rest' => String c rest'
      end
  end.

Definition trim (s : string) : string := trimEnd (trimStart s).

Definition LF : ascii := "010"%char.
Definition dquote : string := String "034"%char EmptyString.

(** ** TypescriptImport *)

(** Modelled from the spec: the class [TypescriptImport] (a package name
    and its binding map, with [addModules], [removeModules] and
    [toString]) is imported by [TypescriptFile] from a file that is not
    part of the sources at hand.  The binding map is the mapping of the
    spec's data model; a statement is a value, the spec ruling out
    aliasing of a document's statements. *)
Record TypescriptImport := mkImport {
  packageName : string;
  modules : gmap string string
}.

(** Modelled from the spec: [addModules] of the missing class; the new
    bindings are merged key by key, overwriting on key collision. *)
Definition addModules (this : TypescriptImport) (new : gmap string string)
  : TypescriptImport :=
  mkImport (packageName this)
           (map_fold (fun k v acc => <[k:=v]> acc) (modules this) new).

(** Modelled from the spec: [removeModules] of the missing class; each key
    of the supplied map is deleted, whatever value comes with it. *)
Definition removeModules (this : TypescriptImport) (old : gmap string string)
  : TypescriptImport :=
  mkImport (packageName this)
           (map_fold (fun k _ acc => delete k acc) (modules this) old).

(** [ITypescriptImport], the plain object callers hand to [setImports];
    [setImports] reads its [packageName] and [modules]. *)
Record ITypescriptImport := mkIImport {
  i_packageName : string;
  i_modules : gmap string string
}.

(** ** TypescriptFile: state and registry operations *)

Record TypescriptFile := mkFile {
  file : string;
  imports : option (list TypescriptImport);
  declarations : option (list string)
}.

(** The array behind [this.imports], after [if (!this.imports) this.imports = []]. *)
Definition importsArray (this : TypescriptFile) : list TypescriptImport :=
  default [] (imports this).

Definition withImports (this : TypescriptFile) (l : list TypescriptImport)
  : TypescriptFile :=
  mkFile (file this) (Some l) (declarations this).

(** Inner loop of [addImports]: every statement of the same package takes
    the modules of [importItem]; the flag is [importToAddFound]. *)
Fixpoint addImports_scan (importItem : TypescriptImport)
    (l : list TypescriptImport) : list TypescriptImport * bool :=
  match l with
  | [] => ([], false)
  | typescriptImport :: rest =>
      let '(rest', found) := addImports_scan importItem rest in
      if decide (packageName importItem ≠ packageName typescriptImport)
      then (typescriptImport :: rest', found)
      else (addModules typescriptImport (modules importItem) :: rest', true)
  end.

(** One turn of the outer loop of [addImports]. *)
Definition addImports_item (l : list TypescriptImport)
    (importItem : TypescriptImport) : list TypescriptImport :=
  let '(l', importToAddFound) := addImports_scan importItem l in
  if importToAddFound then l' else l' ++ [importItem].

Definition addImports (this : TypescriptFile) (items : list TypescriptImport)
  : TypescriptFile :=
  withImports this (fold_left addImports_item items (importsArray this)).

(** Inner loop of [removeImports]. *)
Fixpoint removeImports_scan (importItem : TypescriptImport)
    (l : list TypescriptImport) : list TypescriptImport :=
  match l with
  | [] => []
  | typescriptImport :: rest =>
      (if decide (packageName importItem ≠ packageName typescriptImport)
       then typescriptImport
       else removeModules typescriptImport (modules importItem))
      :: removeImports_scan importItem rest
  end.

Definition removeImports_item (l : list TypescriptImport)
    (importItem : TypescriptImport) : list TypescriptImport :=
  removeImports_scan importItem l.

Definition removeImports (this : TypescriptFile) (items : list TypescriptImport)
  : TypescriptFile :=
  withImports this (fold_left removeImports_item items (importsArray this)).

Definition toImport (importItem : ITypescriptImport) : TypescriptImport :=
  mkImport (i_packageName importItem) (i_modules importItem).

Definition setImports (this : TypescriptFile)
    (importsToAdd importsToRemove : list ITypescriptImport) : TypescriptFile :=
  let importToAddItems := map toImport importsToAdd in
  let importToRemoveItems := map toImport importsToRemove in
  removeImports (addImports this importToAddItems) importToRemoveItems.

(** ** The syntax tree handed over by the parser *)

(** The three kinds of import specifier of the ESTree; the fields are the
    names [local.name] and [imported.name] the class reads. *)
Inductive ImportClause :=
| ImportDefaultSpecifier (local : string)
| ImportNamespaceSpecifier (local : string)
| ImportSpecifier (local imported : string).

(** An [ImportDeclaration] node: [source.value] and [specifiers]. *)
Record ImportDeclaration := mkImportDeclaration {
  source_value : string;
  specifiers : list ImportClause
}.

(** A top-level statement with its [range]; every node type other than
    ['ImportDeclaration'] takes the default branch of [parseContent]. *)
Inductive Statement :=
| ImportDeclarationNode (bodyItem : ImportDeclaration) (range : nat * nat)
| OtherNode (type : string) (range : nat * nat).

(** What the parser throws: [lineNumber] is [None] when the thrown value
    has no such property. *)
Record ParserError := mkParserError {
  lineNumber : option Z;
  column : Z;
  message : string
}.

(** What [parseTypescriptContent] can throw: the [Error] it builds, or the
    [TypeError] of the engine on reading [trim] of [undefined]. *)
Inductive Exception :=
| Error (msg : string)
| TypeError.

(** [array[i]] for a number [i]: [undefined] outside [0 .. length - 1]. *)
Definition arrayGet {A} (l : list A) (i : Z) : option A :=
  if i <? 0 then None else l !! Z.to_nat i.

(** ** [Array.prototype.sort]

    The class runs on Node, whose engine sorts with TimSort.  An array of
    fewer than 64 elements is a single run there: [CountAndMakeRun] finds
    the run the array starts with (reversing it when it is strictly
    descending) and [BinaryInsertionSort] inserts the remaining elements
    one by one.  That path is what is modelled.  The order of the
    arguments of each call of [comparefn] is the engine's: the comparator
    of [getContent] is not symmetric. *)
Section ArraySort.
Context {A : Type} (comparefn : A -> A -> Z).
(** The path of arrays of 64 elements and more, where the engine collects
    several runs and merges them: left to the engine. *)
Variable mergeRuns : list A -> list A.

(** The loop of [CountAndMakeRun]: the elements that continue the run,
    and what follows the run. *)
Fixpoint extendRun (isDescending : bool) (previousElement : A) (l : list A)
  : list A * list A :=
  match l with
  | [] => ([], [])
  | currentElement :: rest =>
      let order := comparefn currentElement previousElement in
      if (if isDescending then 0 <=? order else order <? 0)
      then ([], l)
      else let '(run, tail) := extendRun isDescending currentElement rest in
           (currentElement :: run, tail)
  end.

Definition countAndMakeRun (l : list A) : list A * list A :=
  match l with
  | elementHigh :: elementLow :: rest =>
      let isDescending := comparefn elementLow elementHigh <? 0 in
      let '(run, tail) := extendRun isDescending elementLow rest in
      let run := elementHigh :: elementLow :: run in
      (if isDescending then rev run else run, tail)
  | _ => (l, [])
  end.

(** The binary search of [BinaryInsertionSort] in [sorted[left..right)];
    the loop halves the interval, so [length sorted] turns are enough. *)
Fixpoint insertionPoint (turns : nat) (pivot : A) (sorted : list A)
    (left right : nat) : nat :=
  match turns with
  | O => left
  | S turns' =>
      if (left <? right)%nat then
        let mid := (left + (right - left) / 2)%nat in
        match sorted !! mid with
        | Some element =>
            if comparefn pivot element <? 0
            then insertionPoint turns' pivot sorted left mid
            else insertionPoint turns' pivot sorted (mid + 1)%nat right
        | None => left
        end
      else left
  end.

Definition binaryInsert (sorted : list A) (pivot : A) : list A :=
  let left := insertionPoint (length sorted) pivot sorted 0%nat (length sorted) in
  take left sorted ++ pivot :: drop left sorted.

Definition Array_sort (l : list A) : list A :=
  if (length l <? 2)%nat then l
  else if (length l <? 64)%nat then
    let '(run, tail) := countAndMakeRun l in
    fold_left binaryInsert tail run
  else mergeRuns l.
End ArraySort.

(** ** The engine: parsing, registry, serialization *)

Section Engine.
(** [TypescriptImport.defaultImport] and [TypescriptImport.globImport],
    static constants of the class that is not at hand. *)
Variables defaultImport globImport : string.
(** [String.prototype.localeCompare], which depends on the locale. *)
Variable localeCompare : string -> string -> Z.
(** The engine's sort of arrays of 64 statements and more, for a given
    comparator. *)
Variable sortLong :
  (TypescriptImport -> TypescriptImport -> Z) ->
  list TypescriptImport -> list TypescriptImport.
(** [EOL] of the platform, from ['os']. *)
Variable EOL : string.
(** [parse] of typescript-estree: the body of the program, or what it throws. *)
Variable parse : string -> ParserError + list Statement.
Variable JSON_stringify : ParserError -> string.
(** [StdFile.parseContent], the method of the base class. *)
Variable super_parseContent : string -> string.

(** The entry one specifier stands for, as the pair
    [(moduleName, importType)] of [parseImportDeclaration]. *)
Definition specifierEntry (specifier : ImportClause) : string * string :=
  match specifier with
  | ImportDefaultSpecifier local => (local, defaultImport)
  | ImportNamespaceSpecifier local => (globImport, local)
  | ImportSpecifier local imported =>
      (imported, if decide (local ≠ imported) then local else EmptyString)
  end.

Definition parseImportDeclaration (this : TypescriptFile)
    (bodyItem : ImportDeclaration) : TypescriptFile :=
  match specifiers bodyItem with
  | [] =>
      addImports this
        [mkImport (source_value bodyItem) {[defaultImport := defaultImport]}]
  | specs =>
      fold_left
        (fun this specifier =>
           let '(moduleName, importType) := specifierEntry specifier in
           addImports this
             [mkImport (source_value bodyItem) {[moduleName := importType]}])
        specs this
  end.

Definition parseTypescriptContent (this : TypescriptFile) (content : string)
  : Exception + list Statement :=
  match parse content with
  | inr body => inr body
  | inl error =>
      let contentError : option string :=
        match lineNumber error with
        | Some n =>
            if n =? 0 then Some content
            else arrayGet (split LF content) (n - 1)
        | None => Some content
        end in
      match contentError with
      | Some line =>
          inl (Error ("An error occurred while parsing file content "
                      +:+ dquote +:+ file this +:+ dquote +:+ ": "
                      +:+ JSON_stringify error +:+ " => "
                      +:+ dquote +:+ trim line +:+ dquote))
      | None => inl TypeError
      end
  end.

(** One turn of the loop of [parseContent]. *)
Definition parseContent_item (content : string) (this : TypescriptFile)
    (bodyItem : Statement) : TypescriptFile :=
  match bodyItem with
  | ImportDeclarationNode d _ => parseImportDeclaration this d
  | OtherNode _ range =>
      mkFile (file this) (imports this)
        (Some (default [] (declarations this)
               ++ [substring (fst range) (snd range - fst range) content]))
  end.

(** [parseContent]: the state it leaves, and the content it returns or
    the exception it lets through. *)
Definition parseContent (this : TypescriptFile) (content : string)
  : TypescriptFile * (Exception + string) :=
  let this := mkFile (file this) (Some []) (Some []) in
  let content := super_parseContent content in
  match parseTypescriptContent this content with
  | inl e => (this, inl e)
  | inr body => (fold_left (parseContent_item content) body this, inr content)
  end.

(** The comparator handed to [sort] in [getContent]. *)
Definition compareImports (importA importB : TypescriptImport) : Z :=
  if starts_with_dot (packageName importA) then 1
  else if starts_with_dot (packageName importB) then -1
  else localeCompare (packageName importA) (packageName importB).

(** Modelled from the spec: the entries of a binding map are read with
    the encoding rules in reverse ([toString] of the class is not at
    hand).  An entry with the default sentinel as value and another key is
    a default import. *)
Definition isDefault (entry : string * string) : bool :=
  negb (bool_decide (entry.1 = defaultImport))
  && bool_decide (entry.2 = defaultImport).

(** Modelled from the spec: an entry under the glob sentinel is a
    namespace import ([toString] of the class is not at hand). *)
Definition isNamespace (entry : string * string) : bool :=
  negb (bool_decide (entry.2 = defaultImport))
  && bool_decide (entry.1 = globImport).

(** Modelled from the spec: every other entry with a value that is not
    the default sentinel is a named import ([toString] of the class is
    not at hand). *)
Definition isNamed (entry : string * string) : bool :=
  negb (bool_decide (entry.2 = defaultImport))
  && negb (bool_decide (entry.1 = globImport)).

(** Modelled from the spec: a named import, with its alias when the value
    is not empty ([toString] of the class is not at hand). *)
Definition renderNamed (entry : string * string) : string :=
  if bool_decide (entry.2 = EmptyString) then entry.1
  else entry.1 +:+ " as " +:+ entry.2.

(** Modelled from the spec: [toString] of the class [TypescriptImport],
    which is not at hand.  An empty binding map renders to the empty
    string; otherwise the default, namespace and named bindings are
    combined into one clause list, and a statement with the side-effect
    entry only has no clause. *)
Definition toString (this : TypescriptImport) : string :=
  let entries := map_to_list (modules this) in
  match entries with
  | [] => EmptyString
  | _ =>
      let named := map renderNamed (List.filter isNamed entries) in
      let clauses :=
        map fst (List.filter isDefault entries)
        ++ map (fun e => "* as " +:+ e.2) (List.filter isNamespace entries)
        ++ match named with
           | [] => []
           | _ => ["{ " +:+ join ", " named +:+ " }"]
           end in
      match clauses with
      | [] => "import '" +:+ packageName this +:+ "';"
      | _ => "import " +:+ join ", " clauses
             +:+ " from '" +:+ packageName this +:+ "';"
      end
  end.

(** [getContent]: the text, and the state with [this.imports] sorted in
    place. *)
Definition getContent (this : TypescriptFile) : TypescriptFile * string :=
  let '(this', importLines) :=
    match imports this with
    | Some l =>
        let sorted := Array_sort compareImports (sortLong compareImports) l in
        (withImports this sorted,
         List.filter (fun line => negb (String.length line =? 0)%nat)
                     (map toString sorted))
    | None => (this, [])
    end in
  (this', join EOL (importLines ++ EmptyString :: default [] (declarations this))).

(** The array [getContent] renders: [this.imports] sorted, or nothing. *)
Definition sortedImports (this : TypescriptFile) : list TypescriptImport :=
  match imports this with
  | Some l => Array_sort compareImports (sortLong compareImports) l
  | None => []
  end.

(** *** Sequences of operations on a document *)

(** The calls that touch [this.imports] once a file object exists: the
    two registry methods, [setImports], and one turn of the parsing loop
    (which merges an import declaration or records a body span). *)
Inductive Operation :=
| AddBindings (items : list TypescriptImport)
| RemoveBindings (items : list TypescriptImport)
| SetImports (importsToAdd importsToRemove : list ITypescriptImport)
| ParseItem (content : string) (bodyItem : Statement).

Definition perform (this : TypescriptFile) (op : Operation) : TypescriptFile :=
  match op with
  | AddBindings items => addImports this items
  | RemoveBindings items => removeImports this items
  | SetImports importsToAdd importsToRemove =>
      setImports this importsToAdd importsToRemove
  | ParseItem content bodyItem => parseContent_item content this bodyItem
  end.

(** Every state a document goes through, the first one included. *)
Fixpoint history (this : TypescriptFile) (ops : list Operation)
  : list TypescriptFile :=
  match ops with
  | [] => [this]
  | op :: rest => this :: history (perform this op) rest
  end.

End Engine.

(** *** The encoding rules as the specification words them *)

(** The five source forms of the table of encoding rules. *)
Inductive SourceForm :=
| SideEffectOnly
| DefaultForm (Foo : string)
| NamespaceForm (Foo : string)
| NamedForm (Bar : string)
| AliasedForm (Bar Baz : string).

(** The table itself: the module-reference key and the local-binding value
    of each form, over the two sentinels. *)
Definition encodingRule (DEFAULT GLOB : string) (form : SourceForm)
  : string * string :=
  match form with
  | SideEffectOnly => (DEFAULT, DEFAULT)
  | DefaultForm Foo => (Foo, DEFAULT)
  | NamespaceForm Foo => (GLOB, Foo)
  | NamedForm Bar => (Bar, EmptyString)
  | AliasedForm Bar Baz => (Bar, Baz)
  end.

(** The source form a specifier node stands for: in the tree [{ Bar }] is
    the named specifier whose local and imported names coincide. *)
Definition formOf (specifier : ImportClause) : SourceForm :=
  match specifier with
  | ImportDefaultSpecifier local => DefaultForm local
  | ImportNamespaceSpecifier local => NamespaceForm local
  | ImportSpecifier local imported =>
      if decide (local = imported) then NamedForm imported
      else AliasedForm imported local
  end.

Definition formsOf (bodyItem : ImportDeclaration) : list SourceForm :=
  match specifiers bodyItem with
  | [] => [SideEffectOnly]
  | specs => map formOf specs
  end.

(** The ranges of the statements of a body that are not import
    declarations, in source order. *)
Definition bodyRanges (body : list Statement) : list (nat * nat) :=
  omap (fun bodyItem =>
          match bodyItem with
          | ImportDeclarationNode _ _ => None
          | OtherNode _ range => Some range
          end) body.

(** The text a range spans: [content.substr(range[0], range[1] - range[0])]. *)
Definition spanOf (content : string) (range : nat * nat) : string :=
  substring (fst range) (snd range - fst range) content.

(** The line [parseTypescriptContent] quotes: the whole content when the
    thrown value has no truthy [lineNumber], else the entry of the split
    content the number points at, if there is one. *)
Definition quotedLine (error : ParserError) (content : string) : option string :=
  match lineNumber error with
  | Some n => if n =? 0 then Some content else arrayGet (split LF content) (n - 1)
  | None => Some content
  end.

(** The message of the [Error] that [parseTypescriptContent] builds. *)
Definition parseErrorMessage (path diagnostic line : string) : string :=
  "An error occurred while parsing file content "
  +:+ dquote +:+ path +:+ dquote +:+ ": " +:+ diagnostic +:+ " => "
  +:+ dquote +:+ line +:+ dquote.

(** U+2028 LINE SEPARATOR, written in its UTF-8 bytes: a line break for
    the parser, not for [split('\n')]. *)
Definition lineSeparator : string :=
  String "226"%char (String "128"%char (String "168"%char EmptyString)).

(** A parser that rejects whatever it is given, at line 2. *)
Definition rejectAtLine2 (content : string) : ParserError + list Statement :=
  inl (mkParserError (Some 2) 4 "Variable declaration expected.").

(** *** The order of the import block *)

(** A relative import: the package name starts with a dot. *)
Definition isRelative (t : TypescriptImport) : bool :=
  starts_with_dot (packageName t).

Definition byName (localeCompare : string -> string -> Z)
    (a b : TypescriptImport) : Prop :=
  localeCompare (packageName a) (packageName b) <= 0.

(** An array is arranged when it is a block of non-relative statements in
    the order of their names followed by a block of relative ones. *)
Definition Arranged (localeCompare : string -> string -> Z)
    (l : list TypescriptImport) : Prop :=
  exists A B,
    l = A ++ B
    /\ Forall (fun t => isRelative t = false) A
    /\ Forall (fun t => isRelative t = true) B
    /\ StronglySorted (byName localeCompare) A.

(** The statements whose binding map is not empty. *)
Definition hasBindings (t : TypescriptImport) : bool :=
  negb (bool_decide (modules t = ∅)).


(** *** A document to run the engine on *)

(** A stand-in for the engine's sort of long arrays, which the sample
    document never reaches. *)
Definition sortLong_unreached (comparefn : TypescriptImport -> TypescriptImport -> Z)
    (l : list TypescriptImport) : list TypescriptImport := l.

(** The line terminator of POSIX platforms. *)
Definition EOL_posix : string := String LF EmptyString.

Definition sampleImports : list TypescriptImport :=
  [ mkImport "lodash" {[ "map" := EmptyString ]};
    mkImport "./utils" {[ "Foo" := "default" ]};
    mkImport "react" {[ "React" := "default"; "useState" := EmptyString ]};
    mkImport "../shared" {[ "*" := "shared" ]} ].

Definition sampleFile : TypescriptFile :=
  mkFile "src/App.tsx" (Some sampleImports) (Some ["const x = 1;"]).

(** The content of the first scenario of the specification. *)
Definition sampleContent : string :=
  "import React from 'react';" +:+ EOL_posix
  +:+ "import { useState } from 'react';" +:+ EOL_posix
  +:+ "const x = 1;".

(** The body a parser returns for [sampleContent]. *)
Definition sampleParse (content : string) : ParserError + list Statement :=
  inr [ ImportDeclarationNode
          (mkImportDeclaration "react" [ImportDefaultSpecifier "React"])
          (0%nat, 26%nat);
        ImportDeclarationNode
          (mkImportDeclaration "react" [ImportSpecifier "useState" "useState"])
          (27%nat, 60%nat);
        OtherNode "VariableDeclaration" (61%nat, 73%nat) ].

(** The document parsing [sampleContent] leaves. *)
Definition sampleParsed : TypescriptFile :=
  (parseContent "default" "*" sampleParse message (fun content => content)
                (mkFile "src/App.tsx" None None) sampleContent).1.

(** At most one statement per package name. *)
Definition uniquePackages (this : TypescriptFile) : Prop :=
  NoDup (map packageName (importsArray this)).

(** A comparison of strings by character codes, a [localeCompare] to run
    the serializer with. *)
Definition codeCompare (a b : string) : Z :=
  match String.compare a b with
  | Eq => 0
  | Lt => -1
  | Gt => 1
  end.

(** *** The registry seen through package names *)

(** What pushing a package does to the list of package names: nothing when
    the name is there, one more name at the end otherwise. *)
Definition appendName (names : list string) (p : string) : list string :=
  if decide (p ∈ names) then names else names ++ [p].

(** The sources of the import declarations of a body, in source order. *)
Definition importSources (body : list Statement) : list string :=
  omap (fun bodyItem =>
          match bodyItem with
          | ImportDeclarationNode d _ => Some (source_value d)
          | OtherNode _ _ => None
          end) body.

(** What the two loops of [removeImports] do to one statement of the
    array, item after item. *)
Definition removeFrom (items : list TypescriptImport) (t : TypescriptImport)
  : TypescriptImport :=
  fold_left
    (fun t item =>
       if decide (packageName item ≠ packageName t) then t
       else removeModules t (modules item))
    items t.

(** ** Github versioning *)

(** The fields of the [Result] of parse-github-url that the class reads;
    a field is [None] when it is [null]. *)
Record Result := mkResult {
  host : option string;
  owner : option string;
  repo : option string
}.

(** Truthiness of a [string | null]: a string that is not empty. *)
Definition truthyString (s : option string) : bool :=
  match s with
  | Some s => negb (String.eqb s EmptyString)
  | None => false
  end.

(** Truthiness of a [string | Result]: any object, any string but the
    empty one. *)
Definition truthyValidation (v : string + Result) : bool :=
  match v with
  | inl message => negb (String.eqb message EmptyString)
  | inr _ => true
  end.

Section Github.
(** [AbstractVersioning.validateGitRemote], the method of the base class:
    an error message, or the parsed url. *)
Variable super_validateGitRemote : string -> string + Result.
(** [gitService.getGitRemoteOriginUrl(realpath, false)]: the url of the
    remote as a string, or [null]. *)
Variable getGitRemoteOriginUrl : string -> option string.

Definition validateGitRemote (input : string) : string + Result :=
  match super_validateGitRemote input with
  | inl message => inl message
  | inr result =>
      if negb (truthyString (host result)) then
        inl ("Could not parse Git remote host from given url "
             +:+ dquote +:+ input +:+ dquote)
      else if decide (host result ≠ Some "github.com") then
        inl ("Git remote url " +:+ dquote +:+ input +:+ dquote
             +:+ " is not a Github url")
      else inr result
  end.

Definition isEnabled (realpath : string) : bool :=
  match getGitRemoteOriginUrl realpath with
  | Some parsedGitRemote =>
      truthyString (Some parsedGitRemote)
      && truthyValidation (validateGitRemote parsedGitRemote)
  | None => false
  end.
End Github.

(** ** CliService *)

(** A decimal digit, what [\d] matches. *)
Definition isDigit (c : ascii) : bool :=
  let n := nat_of_ascii c in (48 <=? n)%nat && (n <=? 57)%nat.

(** The longest run of digits a string starts with, and what follows. *)
Fixpoint spanDigits (s : string) : string * string :=
  match s with
  | String c rest =>
      if isDigit c then
        let '(digits, tail) := spanDigits rest in (String c digits, tail)
      else (EmptyString, s)
  | EmptyString => (EmptyString, EmptyString)
  end.

(** The first group of [/^v(\d+\.\d+)/] on a string, when it matches. *)
Definition matchNodeVersion (version : string) : option string :=
  match version with
  | String c rest =>
      if Ascii.eqb c "v"%char then
        let '(major, afterMajor) := spanDigits rest in
        match major, afterMajor with
        | String _ _, String dot afterDot =>
            if Ascii.eqb dot "."%char then
              match spanDigits afterDot with
              | (String d minor, _) => Some (major +:+ "." +:+ String d minor)
              | (EmptyString, _) => None
              end
            else None
        | _, _ => None
        end
      else None
  | EmptyString => None
  end.

(** [getNodeVersion], on the value of [process.version]. *)
Definition getNodeVersion (process_version : string) : Exception + string :=
  match matchNodeVersion process_version with
  | Some group => inr group
  | None => inl (Error "Unable to retrieve node version")
  end.

(** The [args] of [execCmd]: a string or an array of strings. *)
Inductive CommandArgs :=
| ArgsString (s : string)
| ArgsArray (l : list string).

(** What the child process emits, as [execCmd] listens to it. *)
Inductive ChildEvent :=
| StdoutData (data : string)
| StderrData (data : string)
| ExitEvent (code : option Z).

(** A settled promise of [execCmd]. *)
Inductive Settled :=
| Resolved (output : string)
| Rejected (error : string).

(** The variables [output] and [error] of the executor, and the state of
    the promise. *)
Record ChildState := mkChildState {
  cs_output : string;
  cs_error : string;
  cs_settled : option Settled
}.

(** One part of a diff: [added] and [removed] may be left undefined. *)
Record Change := mkChange {
  added : option bool;
  removed : option bool;
  value : string
}.

(** The call of [spawn] that [execCmd] makes. *)
Record SpawnCall := mkSpawnCall {
  sp_cmd : string;
  sp_args : list string;
  sp_stdio : string;
  sp_cwd : option string
}.

(** How far [promptOverwriteFileDiff] has come: the value it returned, a
    rejection, or still waiting for an answer. *)
Inductive PromptOutcome :=
| Returned (overwrite : bool)
| PauseRejected
| Waiting.

(** What [promptOverwriteFileDiff] has done: its outcome, the number of
    prompts answered and the messages given to [consoleService.info]. *)
Record PromptRun := mkPromptRun {
  decision : PromptOutcome;
  prompts : nat;
  shown : list string
}.

Section CliService.
(** [which] of shelljs, as a truth value. *)
Variable which : string -> bool.
(** [fileService.dirExistsSync]. *)
Variable dirExistsSync : string -> bool.
(** The colour functions of chalk and [process.stdout.columns]. *)
Variables bgGreenBright greenBright bgRedBright redBright grey : string -> string.
Variable columns : nat.
(** Whether [process.stdin.setRawMode] is there to call, as on a terminal;
    [pause] rejects when it is not. *)
Variable stdinIsTTY : bool.

Definition getCmd (cmd : string) : option string :=
  if which cmd then Some cmd else None.

Definition getGlobalCmd (cmd : string) : option string :=
  if truthyString (getCmd cmd) then Some cmd
  else if truthyString (getCmd "npx") then Some ("npx " +:+ cmd)
  else None.

(** The listeners of [execCmd]; with [stdio: 'inherit'] the child has no
    [stdout] and no [stderr] to listen to. *)
Definition onChildEvent (silent : bool) (st : ChildState) (ev : ChildEvent)
  : ChildState :=
  match ev with
  | StdoutData data =>
      if silent
      then mkChildState (cs_output st +:+ String LF data) (cs_error st) (cs_settled st)
      else st
  | StderrData data =>
      if silent
      then mkChildState (cs_output st) (cs_error st +:+ String LF data) (cs_settled st)
      else st
  | ExitEvent code =>
      match cs_settled st with
      | Some _ => st
      | None =>
          let failed := match code with Some n => negb (n =? 0) | None => false end in
          mkChildState (cs_output st) (cs_error st)
            (Some (if failed then Rejected (cs_error st) else Resolved (cs_output st)))
      end
  end.

(** [execCmd]: what it throws before spawning, or the call of [spawn] it
    makes and the state of its promise once the child has emitted
    [events]. *)
Definition execCmd (args : CommandArgs) (cwd : option string) (silent : bool)
    (events : list ChildEvent) : Exception + SpawnCall * option Settled :=
  let empty :=
    match args with
    | ArgsString s => (String.length s =? 0)%nat
    | ArgsArray l => (length l =? 0)%nat
    end in
  if empty then inl (Error "Command args must not be empty")
  else if truthyString cwd && negb (dirExistsSync (default EmptyString cwd))
  then inl (Error ("Directory " +:+ dquote +:+ default EmptyString cwd +:+ dquote
                   +:+ " does not exist"))
  else
    let '(cmd, rest) :=
      match args with
      | ArgsString s => (s, [])
      | ArgsArray l => (default EmptyString (head l), tail l)
      end in
    inr (mkSpawnCall cmd rest (if silent then "pipe" else "inherit") cwd,
         cs_settled (fold_left (onChildEvent silent) events
                       (mkChildState EmptyString EmptyString None))).

(** [diff.some((part) => part.added !== undefined || part.removed !== undefined)]. *)
Definition hasDiff (diff : list Change) : bool :=
  existsb (fun part => bool_decide (added part ≠ None)
                       || bool_decide (removed part ≠ None)) diff.

(** [/^[\r\n\s]+$/] on a string of these characters. *)
Fixpoint allSpaces (s : string) : bool :=
  match s with
  | String c rest => is_space c && allSpaces rest
  | EmptyString => true
  end.
Definition isSpaces (s : string) : bool :=
  negb (String.eqb s EmptyString) && allSpaces s.

Fixpoint repeatSpace (n : nat) : string :=
  match n with
  | O => EmptyString
  | S n' => String " "%char (repeatSpace n')
  end.

(** One part of the diff as the loop of [promptOverwriteFileDiff] adds it
    to the message. *)
Definition renderPart (part : Change) : string :=
  let colorFunction :=
    if bool_decide (added part = Some true) then
      (if isSpaces (value part) then bgGreenBright else greenBright)
    else if bool_decide (removed part = Some true) then
      (if isSpaces (value part) then bgRedBright else redBright)
    else grey in
  colorFunction (if String.eqb (value part) (String LF EmptyString)
                 then repeatSpace columns else value part).

Definition diffMessage (path : string) (diff : list Change) : string :=
  fold_left (fun message part => message +:+ renderPart part) diff
            ("File " +:+ path +:+ " diff:" +:+ String LF EmptyString
             +:+ "-----------------------------------------------"
             +:+ String LF EmptyString)
  +:+ String LF EmptyString
  +:+ "-----------------------------------------------"
  +:+ String LF EmptyString.

(** The loop of [promptOverwriteFileDiff] over the actions the user
    chooses, one per prompt: each turn that is neither a cancel nor an
    overwrite shows the diff and pauses. *)
Fixpoint promptLoop (path : string) (diff : list Change)
    (actions : list (option string)) (run : PromptRun) : PromptRun :=
  match actions with
  | [] => run
  | action :: rest =>
      if bool_decide (action = Some "cancel") then
        mkPromptRun (Returned false) (S (prompts run)) (shown run)
      else if bool_decide (action = Some "overwrite") then
        mkPromptRun (Returned true) (S (prompts run)) (shown run)
      else
        let messages :=
          shown run ++ [diffMessage path diff; "Press any key to continue..."] in
        if stdinIsTTY
        then promptLoop path diff rest (mkPromptRun Waiting (S (prompts run)) messages)
        else mkPromptRun PauseRejected (S (prompts run)) messages
  end.

(** [promptOverwriteFileDiff], given the actions the user chooses at the
    prompts ([None] for a prompt left without a choice). *)
Definition promptOverwriteFileDiff (path : string) (diff : list Change)
    (actions : list (option string)) : PromptRun :=
  if negb (hasDiff diff) then mkPromptRun (Returned false) 0 []
  else promptLoop path diff actions (mkPromptRun Waiting 0 []).
End CliService.

(** The chunks a child wrote on one of its streams, each after a line feed. *)
Definition stdoutOf (events : list ChildEvent) : string :=
  fold_left (fun acc ev => match ev with StdoutData d => acc +:+ String LF d | _ => acc end)
            events EmptyString.
Definition stderrOf (events : list ChildEvent) : string :=
  fold_left (fun acc ev => match ev with StderrData d => acc +:+ String LF d | _ => acc end)
            events EmptyString.

(** No exit among the events. *)
Definition running (events : list ChildEvent) : Prop :=
  Forall (fun ev => match ev with ExitEvent _ => False | _ => True end) events.

(** A string of digits. *)
Fixpoint allDigits (s : string) : bool :=
  match s with
  | String c rest => isDigit c && allDigits rest
  | EmptyString => true
  end.

(** The first character of a string is not a digit. *)
Definition noDigitAhead (s : string) : bool :=
  match s with
  | String c _ => negb (isDigit c)
  | EmptyString => true
  end.

(** ** The package manager module *)

Inductive PackageManager :=
| yarn
| npm.

(** What the functions of the module throw or reject with: the [Error]s
    they build, and the failures of what they call ([JSON.parse], the
    property of a [null], [readFileSync], [exec]). *)
Inductive Raised :=
| RaisedError (message : string)
| RaisedSyntaxError
| RaisedTypeError
| RaisedSystemError
| RaisedRejection.

(** The file system as the module reads it: [existsSync], the [mtime] of
    [statSync] and [readFileSync] (path and encoding; [None] when it
    throws). *)
Record FileSystem := mkFileSystem {
  existsSync : string -> bool;
  statSync_mtime : string -> Z;
  readFileSync : string -> string -> option string
}.

(** What [installPackages] does to the outside: the messages of [info] and
    [success], the commands given to [exec]. *)
Inductive Effect :=
| Info (message : string)
| Success (message : string)
| Exec (command dirPath : string).

Section PackageModule.
(** The values of JavaScript that come out of [JSON.parse] and of property
    accesses, with [JSON.parse] itself ([None] when it throws), the access
    [value[key]] ([None] when it throws, on [null]) and truthiness. *)
Variable Value : Type.
Variable JSON_parse : string -> option Value.
Variable getProperty : Value -> string -> option Value.
Variable truthy : Value -> bool.
(** [resolve] of ['path'], [which] of shelljs as a truth value, and [exec]
    of ['./Cli'] ([true] when its promise is fulfilled). *)
Variable resolve : string -> string -> string.
Variable which : string -> bool.
Variable exec : string -> string -> bool.

(** [packageCache]: per directory, the [mtime] and the data read. *)
Local Abbreviation PackageCache := (gmap string (Z * Value)).

Definition directoryMissing (dirPath : string) : Raised :=
  RaisedError ("Directory " +:+ dquote +:+ dirPath +:+ dquote +:+ " does not exist").

Definition getPackageManager (fs : FileSystem) (dirPath : string)
  : Raised + PackageManager :=
  if negb (existsSync fs dirPath) then inl (directoryMissing dirPath)
  else if existsSync fs (resolve dirPath "yarn.lock") then inr yarn
  else inr npm.

Definition getPackageJson (fs : FileSystem) (dirPath : string)
  : Raised + option string :=
  if negb (existsSync fs dirPath) then inl (directoryMissing dirPath)
  else
    let packageJsonPath := resolve dirPath "package.json" in
    if existsSync fs packageJsonPath then inr (Some packageJsonPath)
    else inr None.

(** [data[property]] as the outcome of a call. *)
Definition access (data : Value) (property : string) : Raised + Value :=
  match getProperty data property with
  | Some v => inr v
  | None => inl RaisedTypeError
  end.

Definition getPackageInfo (fs : FileSystem) (cache : PackageCache)
    (dirPath property encoding : string) : PackageCache * (Raised + Value) :=
  if negb (existsSync fs dirPath) then (cache, inl (directoryMissing dirPath))
  else
    match getPackageJson fs dirPath with
    | inl e => (cache, inl e)
    | inr packageJsonPath =>
        if negb (truthyString packageJsonPath) then
          (cache, inl (RaisedError ("package.json does not exist in directory "
                                    +:+ dquote +:+ dirPath +:+ dquote)))
        else
          let path := default EmptyString packageJsonPath in
          let mtime := statSync_mtime fs path in
          let hit :=
            match cache !! dirPath with
            | Some (cachedMtime, data) =>
                if mtime <=? cachedMtime then Some data else None
            | None => None
            end in
          match hit with
          | Some data => (cache, access data property)
          | None =>
              match readFileSync fs path encoding with
              | None => (cache, inl RaisedSystemError)
              | Some text =>
                  match JSON_parse text with
                  | None => (cache, inl RaisedSyntaxError)
                  | Some data =>
                      (<[dirPath := (mtime, data)]> cache, access data property)
                  end
              end
          end
    end.

Definition hasInstalledPackage (fs : FileSystem) (cache : PackageCache)
    (dirPath packageName : string) (dev : bool) (encoding : string)
  : PackageCache * (Raised + bool) :=
  match getPackageInfo fs cache dirPath
          (if dev then "devDependencies" else "dependencies") encoding with
  | (cache', inl e) => (cache', inl e)
  | (cache', inr installedPackages) =>
      if truthy installedPackages then
        match getProperty installedPackages packageName with
        | Some v => (cache', inr (truthy v))
        | None => (cache', inl RaisedTypeError)
        end
      else (cache', inr false)
  end.

(** [packages.filter(packageName => !hasInstalledPackage(dirPath,
    packageName, dev))], the cache going from one call to the next. *)
Fixpoint notInstalled (fs : FileSystem) (cache : PackageCache) (dirPath : string)
    (dev : bool) (packages : list string) : PackageCache * (Raised + list string) :=
  match packages with
  | [] => (cache, inr [])
  | packageName :: rest =>
      match hasInstalledPackage fs cache dirPath packageName dev "utf8" with
      | (cache', inl e) => (cache', inl e)
      | (cache', inr installed) =>
          match notInstalled fs cache' dirPath dev rest with
          | (cache'', inl e) => (cache'', inl e)
          | (cache'', inr kept) =>
              (cache'', inr (if installed then kept else packageName :: kept))
          end
      end
  end.

(** The [switch] of [installPackages]: the case of yarn has no [break], so
    control goes on into the case of npm, which sets [command] again. *)
Definition installCommand (packageManager : PackageManager) (packages : list string)
    (dev : bool) : Raised + string :=
  let afterYarn : Raised + option string :=
    match packageManager with
    | yarn =>
        if negb (which "yarn") then
          inl (RaisedError ("Unable to install packages, please install "
                            +:+ dquote +:+ "yarn" +:+ dquote))
        else inr (Some ("yarn add " +:+ join " " packages
                        +:+ (if dev then " --dev " else EmptyString)))
    | npm => inr None
    end in
  match afterYarn with
  | inl e => inl e
  | inr _ =>
      if negb (which "npm") then
        inl (RaisedError ("Unable to install packages, please install "
                          +:+ dquote +:+ "npm" +:+ dquote))
      else inr ("npm install " +:+ (if dev then " -D " else EmptyString)
                +:+ join " " packages +:+ " --save")
  end.

Definition installPackages (fs : FileSystem) (cache : PackageCache)
    (dirPath : string) (packages : list string) (verbose dev : bool)
  : PackageCache * list Effect * (Raised + list string) :=
  let started := if verbose then [Info "Installs packages..."] else [] in
  match notInstalled fs cache dirPath dev packages with
  | (cache', inl e) => (cache', started, inl e)
  | (cache', inr []) =>
      (cache',
       started ++ (if verbose then [Success "No package has been installed"] else []),
       inr [])
  | (cache', inr kept) =>
      match getPackageManager fs dirPath with
      | inl e => (cache', started, inl e)
      | inr packageManager =>
          match installCommand packageManager kept dev with
          | inl e => (cache', started, inl e)
          | inr command =>
              if exec command dirPath then
                (cache',
                 started ++ [Exec command dirPath]
                 ++ (if verbose
                     then [Success ("Package(s) " +:+ dquote +:+ join ", " kept
                                    +:+ dquote +:+ " have been installed")]
                     else []),
                 inr kept)
              else (cache', started ++ [Exec command dirPath], inl RaisedRejection)
          end
      end
  end.

Definition installDevPackages (fs : FileSystem) (cache : PackageCache)
    (dirPath : string) (devPackages : list string) (verbose : bool)
  : PackageCache * list Effect * (Raised + list string) :=
  installPackages fs cache dirPath devPackages verbose true.

(** What [hasInstalledPackage] makes of the answer of [getPackageInfo]. *)
Definition installedIn (installedPackages : Raised + Value) (packageName : string)
  : Raised + bool :=
  match installedPackages with
  | inl e => inl e
  | inr installedPackages =>
      if truthy installedPackages then
        match getProperty installedPackages packageName with
        | Some v => inr (truthy v)
        | None => inl RaisedTypeError
        end
      else inr false
  end.

(** Whether [hasInstalledPackage] answers [false] for a package. *)
Definition reportsMissing (fs : FileSystem) (cache : PackageCache)
    (dirPath : string) (dev : bool) (packageName : string) : bool :=
  match (hasInstalledPackage fs cache dirPath packageName dev "utf8").2 with
  | inr false => true
  | _ => false
  end.

End PackageModule.

(** *** Samples for the other modules *)

(** A remote url the base class parses, with its host. *)
Definition sample_validateGitRemote (input : string) : string + Result :=
  if String.eqb input "https://github.com/neilime/reactionable-cli" then
    inr (mkResult (Some "github.com") (Some "neilime") (Some "neilime/reactionable-cli"))
  else if String.eqb input "https://gitlab.com/neilime/reactionable-cli" then
    inr (mkResult (Some "gitlab.com") (Some "neilime") (Some "neilime/reactionable-cli"))
  else inl "Unable to parse url".

(** Every repository has the GitLab url as its remote. *)
Definition sample_remote (realpath : string) : option string :=
  Some "https://gitlab.com/neilime/reactionable-cli".

(** Only [npx] is found. *)
Definition sample_which_npx (cmd : string) : bool := String.eqb cmd "npx".

(** Everything is found, every directory exists, every command succeeds,
    and no colour is applied. *)
Definition sample_found (cmd : string) : bool := true.
Definition sample_exec (command dirPath : string) : bool := true.
Definition sample_plain (text : string) : string := text.

(** Values of JavaScript, as far as a [package.json] needs them: a
    package with its dependencies, a table of versions, a string. *)
Inductive SampleValue :=
| SampleUndefined
| SampleString (s : string)
| SampleVersions (entries : list (string * string))
| SamplePackage (dependencies : list (string * string)).

Definition sample_getProperty (v : SampleValue) (key : string) : option SampleValue :=
  match v with
  | SampleUndefined => None
  | SampleString _ => Some SampleUndefined
  | SampleVersions entries =>
      Some (match List.find (fun entry => String.eqb (fst entry) key) entries with
            | Some entry => SampleString (snd entry)
            | None => SampleUndefined
            end)
  | SamplePackage dependencies =>
      Some (if String.eqb key "dependencies" then SampleVersions dependencies
            else SampleUndefined)
  end.

Definition sample_truthy (v : SampleValue) : bool :=
  match v with
  | SampleUndefined => false
  | SampleString s => negb (String.eqb s EmptyString)
  | SampleVersions _ => true
  | SamplePackage _ => true
  end.

(** A [JSON.parse] that knows one text: a package depending on react. *)
Definition sample_JSON_parse (text : string) : option SampleValue :=
  if String.eqb text "{react}" then Some (SamplePackage [("react", "^17.0.0")])
  else None.

Definition sample_resolve (dirPath name : string) : string :=
  dirPath +:+ "/" +:+ name.

(** A directory [app] with a [package.json] and a [yarn.lock]. *)
Definition sample_fs : FileSystem :=
  mkFileSystem
    (fun path => bool_decide (path ∈ ["app"; "app/package.json"; "app/yarn.lock"]))
    (fun path => 5)
    (fun path encoding => Some "{react}").

(** * Facts *)

(** ** The binding map of a statement *)

Lemma lookup_addModules (t : TypescriptImport) (new : gmap string string) (k : string) :
  modules (addModules t new) !! k
  = match new !! k with Some v => Some v | None => modules t !! k end.
Proof.
  unfold addModules; simpl.
  apply (map_fold_weak_ind
           (fun (acc : gmap string string) (m : gmap string string) =>
              acc !! k = match m !! k with Some v => Some v | None => modules t !! k end)).
  - by rewrite lookup_empty.
  - intros i x m acc Hi IH.
    destruct (decide (i = k)) as [->|Hne].
    + by rewrite !lookup_insert_eq.
    + by rewrite !lookup_insert_ne.
Qed.

Lemma lookup_removeModules (t : TypescriptImport) (old : gmap string string) (k : string) :
  modules (removeModules t old) !! k
  = match old !! k with Some _ => None | None => modules t !! k end.
Proof.
  unfold removeModules; simpl.
  apply (map_fold_weak_ind
           (fun (acc : gmap string string) (m : gmap string string) =>
              acc !! k = match m !! k with Some _ => None | None => modules t !! k end)).
  - by rewrite lookup_empty.
  - intros i x m acc Hi IH.
    destruct (decide (i = k)) as [->|Hne].
    + by rewrite lookup_delete_eq, lookup_insert_eq.
    + by rewrite lookup_delete_ne, lookup_insert_ne.
Qed.

Lemma import_eq (t t' : TypescriptImport) :
  packageName t = packageName t' ->
  (forall k, modules t !! k = modules t' !! k) ->
  t = t'.
Proof.
  destruct t, t'; simpl; intros -> H. f_equal. by apply map_eq.
Qed.

(** ** The loops of [addImports] and [removeImports] *)

Lemma addImports_scan_fst (item : TypescriptImport) (l : list TypescriptImport) :
  (addImports_scan item l).1
  = map (fun t => if decide (packageName item ≠ packageName t) then t
                  else addModules t (modules item)) l.
Proof.
  induction l as [|t l IH]; simpl; [done|].
  destruct (addImports_scan item l) as [l' found]; simpl in *.
  case_decide; simpl; by rewrite IH.
Qed.

Lemma addImports_scan_snd (item : TypescriptImport) (l : list TypescriptImport) :
  (addImports_scan item l).2 = true <-> In (packageName item) (map packageName l).
Proof.
  induction l as [|t l IH]; simpl; [split; [discriminate|tauto]|].
  destruct (addImports_scan item l) as [l' found]; simpl in *.
  case_decide as Hd; simpl.
  - rewrite IH. split; [tauto|]. intros [Heq|Hin]; [congruence|done].
  - split; [|done]. intros _. left. destruct (decide (packageName item = packageName t)); [done|tauto].
Qed.

Lemma addImports_scan_names (item : TypescriptImport) (l : list TypescriptImport) :
  map packageName (addImports_scan item l).1 = map packageName l.
Proof.
  rewrite addImports_scan_fst, map_map. apply map_ext.
  intros t. by case_decide.
Qed.

Lemma removeImports_scan_names (item : TypescriptImport) (l : list TypescriptImport) :
  map packageName (removeImports_scan item l) = map packageName l.
Proof.
  induction l as [|t l IH]; simpl; [done|]. rewrite IH. by case_decide.
Qed.

Lemma addImports_item_unique (l : list TypescriptImport) (item : TypescriptImport) :
  NoDup (map packageName l) -> NoDup (map packageName (addImports_item l item)).
Proof.
  intros Hl. unfold addImports_item.
  pose proof (addImports_scan_names item l) as Hn.
  pose proof (addImports_scan_snd item l) as Hf.
  destruct (addImports_scan item l) as [l' found]; simpl in *.
  destruct found.
  - by rewrite Hn.
  - rewrite map_app, Hn. simpl.
    apply NoDup_app. split_and!; [done| |apply NoDup_singleton].
    intros x Hx Hx'. apply list_elem_of_singleton in Hx' as ->.
    apply list_elem_of_In in Hx. apply Hf in Hx. discriminate.
Qed.

Lemma addImports_unique (this : TypescriptFile) (items : list TypescriptImport) :
  uniquePackages this -> uniquePackages (addImports this items).
Proof.
  unfold uniquePackages, addImports, importsArray at 2; simpl.
  generalize (importsArray this). induction items as [|item items IH]; simpl; [done|].
  intros l Hl. by apply IH, addImports_item_unique.
Qed.

Lemma removeImports_names (this : TypescriptFile) (items : list TypescriptImport) :
  map packageName (importsArray (removeImports this items))
  = map packageName (importsArray this).
Proof.
  unfold removeImports, importsArray at 1; simpl.
  generalize (importsArray this). induction items as [|item items IH]; simpl; [done|].
  intros l. rewrite IH. apply removeImports_scan_names.
Qed.

Lemma removeImports_unique (this : TypescriptFile) (items : list TypescriptImport) :
  uniquePackages this -> uniquePackages (removeImports this items).
Proof. unfold uniquePackages. by rewrite removeImports_names. Qed.

(** ** De-duplication *)

Section Registry.
Variables defaultImport globImport : string.

Lemma parseImportDeclaration_unique (this : TypescriptFile) (d : ImportDeclaration) :
  uniquePackages this ->
  uniquePackages (parseImportDeclaration defaultImport globImport this d).
Proof.
  unfold parseImportDeclaration.
  destruct (specifiers d) as [|s specs] eqn:Hs; [apply addImports_unique|].
  generalize (s :: specs). clear Hs. intros l. revert this.
  induction l as [|c l IH]; simpl; [done|].
  intros this Hu. apply IH.
  destruct (specifierEntry defaultImport globImport c). by apply addImports_unique.
Qed.

Lemma perform_unique (this : TypescriptFile) (op : Operation) :
  uniquePackages this ->
  uniquePackages (perform defaultImport globImport this op).
Proof.
  destruct op as [items|items|adds removes|content [d r|ty r]]; simpl; intros Hu.
  - by apply addImports_unique.
  - by apply removeImports_unique.
  - by apply removeImports_unique, addImports_unique.
  - by apply parseImportDeclaration_unique.
  - done.
Qed.

Lemma history_unique (ops : list Operation) (this : TypescriptFile) :
  uniquePackages this ->
  Forall uniquePackages (history defaultImport globImport this ops).
Proof.
  revert this. induction ops as [|op ops IH]; simpl; intros this Hu.
  - by constructor.
  - constructor; [done|]. by apply IH, perform_unique.
Qed.

(** The parsing loop is a sequence of [ParseItem] operations. *)
Lemma parse_loop_history (content : string) (body : list Statement)
    (this : TypescriptFile) :
  last (history defaultImport globImport this (map (ParseItem content) body))
  = Some (fold_left (parseContent_item defaultImport globImport content) body this).
Proof.
  revert this. induction body as [|b body IH]; simpl; intros this; [done|].
  rewrite <- IH.
  by destruct (history defaultImport globImport
                 (parseContent_item defaultImport globImport content this b)
                 (map (ParseItem content) body)) eqn:E;
    [destruct body; simpl in E; discriminate|].
Qed.

Lemma parse_loop_unique (content : string) (body : list Statement)
    (this : TypescriptFile) :
  uniquePackages this ->
  uniquePackages (fold_left (parseContent_item defaultImport globImport content) body this).
Proof.
  intros Hu.
  pose proof (history_unique (map (ParseItem content) body) this Hu) as Hall.
  pose proof (parse_loop_history content body this) as Hlast.
  apply last_Some_elem_of in Hlast.
  by apply (proj1 (Forall_forall _ _) Hall).
Qed.

Lemma parseContent_unique parse JSON_stringify super_parseContent
    (this : TypescriptFile) (content : string) :
  uniquePackages
    (parseContent defaultImport globImport parse JSON_stringify
                  super_parseContent this content).1.
Proof.
  unfold parseContent.
  destruct (parseTypescriptContent _ _ _ _) as [e|body]; simpl.
  - apply NoDup_nil_2.
  - apply parse_loop_unique. apply NoDup_nil_2.
Qed.

(** C1. Whatever sequence of add, remove, set and parse-merge operations
    a document goes through, every state on the way holds at most one
    statement per package name: from a new file object (no array yet),
    from the empty array parsing starts with, and from the state parsing
    leaves. *)
Theorem C1_one_statement_per_package :
  forall (f : string) (decls : option (list string)) (ops : list Operation),
    Forall uniquePackages
           (history defaultImport globImport (mkFile f None decls) ops)
    /\ Forall uniquePackages
              (history defaultImport globImport (mkFile f (Some []) decls) ops)
    /\ forall parse JSON_stringify super_parseContent this content,
        Forall uniquePackages
               (history defaultImport globImport
                  (parseContent defaultImport globImport parse JSON_stringify
                                super_parseContent this content).1 ops).
Proof.
  intros f decls ops. split_and!.
  - apply history_unique, NoDup_nil_2.
  - apply history_unique, NoDup_nil_2.
  - intros. apply history_unique, parseContent_unique.
Qed.

End Registry.

(** ** Decomposition of import declarations *)

Section Encoding.
Variables defaultImport globImport : string.

Lemma specifierEntry_rule (specifier : ImportClause) :
  specifierEntry defaultImport globImport specifier
  = encodingRule defaultImport globImport (formOf specifier).
Proof.
  destruct specifier as [local|local|local imported]; simpl; [done|done|].
  destruct (decide (local = imported)) as [->|Hne]; simpl.
  - by rewrite decide_False by tauto.
  - by rewrite decide_True.
Qed.

Lemma specifiers_loop_rule (pkg : string) (specs : list ImportClause)
    (this : TypescriptFile) :
  fold_left
    (fun this specifier =>
       let '(moduleName, importType) :=
         specifierEntry defaultImport globImport specifier in
       addImports this [mkImport pkg {[moduleName := importType]}])
    specs this
  = fold_left
      (fun this form =>
         addImports this
           [mkImport pkg
              {[ (encodingRule defaultImport globImport form).1
                 := (encodingRule defaultImport globImport form).2 ]}])
      (map formOf specs) this.
Proof.
  revert this. induction specs as [|s specs IH]; intros this; [done|].
  cbn [fold_left map]. rewrite specifierEntry_rule.
  destruct (encodingRule defaultImport globImport (formOf s)) as [k v].
  apply IH.
Qed.

Lemma addImports_fresh (f : string) (decls : option (list string))
    (item : TypescriptImport) :
  addImports (mkFile f None decls) [item] = mkFile f (Some [item]) decls.
Proof. reflexivity. Qed.

(** C3. Parsing an import declaration makes one merge per source form,
    with the entry the table of encoding rules gives for it (a
    declaration without specifiers counting as the side-effect form);
    on a document without imports the five forms leave the statement
    with exactly the entry of their rule. *)
Theorem C3_encoding_rules :
  (forall (this : TypescriptFile) (bodyItem : ImportDeclaration),
      parseImportDeclaration defaultImport globImport this bodyItem
      = fold_left
          (fun this form =>
             addImports this
               [mkImport (source_value bodyItem)
                  {[ (encodingRule defaultImport globImport form).1
                     := (encodingRule defaultImport globImport form).2 ]}])
          (formsOf bodyItem) this)
  /\ forall (f : string) (decls : option (list string)) (pkg : string),
      let parsed specs :=
        imports (parseImportDeclaration defaultImport globImport
                   (mkFile f None decls) (mkImportDeclaration pkg specs)) in
      parsed [] = Some [mkImport pkg {[defaultImport := defaultImport]}]
      /\ (forall Foo, parsed [ImportDefaultSpecifier Foo]
                      = Some [mkImport pkg {[Foo := defaultImport]}])
      /\ (forall Foo, parsed [ImportNamespaceSpecifier Foo]
                      = Some [mkImport pkg {[globImport := Foo]}])
      /\ (forall Bar, parsed [ImportSpecifier Bar Bar]
                      = Some [mkImport pkg {[Bar := EmptyString]}])
      /\ (forall Bar Baz, Baz ≠ Bar ->
                          parsed [ImportSpecifier Baz Bar]
                          = Some [mkImport pkg {[Bar := Baz]}]).
Proof.
  split.
  - intros this [pkg specs]. unfold parseImportDeclaration, formsOf.
    cbn [specifiers source_value].
    destruct specs as [|s specs]; [done|].
    apply (specifiers_loop_rule pkg (s :: specs)).
  - intros f decls pkg parsed. unfold parsed, parseImportDeclaration; simpl.
    split_and!; try done.
    + intros Bar. by rewrite decide_False by tauto.
    + intros Bar Baz Hne. by rewrite decide_True.
Qed.

End Encoding.

(** ** Adding and removing bindings *)

Lemma removeImports_scan_map (item : TypescriptImport) (l : list TypescriptImport) :
  removeImports_scan item l
  = map (fun t => if decide (packageName item ≠ packageName t) then t
                  else removeModules t (modules item)) l.
Proof. induction l as [|t l IH]; simpl; [done|]. by rewrite IH. Qed.

Lemma removeModules_absent (t : TypescriptImport) (old : gmap string string) :
  (forall k, is_Some (old !! k) -> modules t !! k = None) ->
  removeModules t old = t.
Proof.
  intros H. apply import_eq; [done|].
  intros k. rewrite lookup_removeModules.
  destruct (old !! k) eqn:E; [|done]. symmetry. apply H. by rewrite E.
Qed.

Lemma removeModules_dom (t : TypescriptImport) (old old' : gmap string string) :
  dom old' = dom old -> removeModules t old' = removeModules t old.
Proof.
  intros Hdom. apply import_eq; [done|].
  intros k. rewrite !lookup_removeModules.
  assert (is_Some (old' !! k) <-> is_Some (old !! k)) as Hiff
      by (by rewrite <- !elem_of_dom, Hdom).
  destruct (old' !! k) eqn:E', (old !! k) eqn:E; try done.
  - destruct (proj1 Hiff) as [? ?]; [by eexists|discriminate].
  - destruct (proj2 Hiff) as [? ?]; [by eexists|discriminate].
Qed.

(** C4. Removing bindings of package [p] keeps every statement in place
    and deletes, in the statements of [p], exactly the keys of the
    supplied map, whatever values it holds; when none of the keys is
    bound, or no statement is of package [p], the array of statements,
    the body spans and the path are what they were.  The call returns a
    document: there is no failure to return. *)
Theorem C4_removal_is_keyed :
  forall (this : TypescriptFile) (p : string) (bindings : gmap string string),
    let this' := removeImports this [mkImport p bindings] in
    file this' = file this
    /\ declarations this' = declarations this
    /\ length (importsArray this') = length (importsArray this)
    /\ (forall i t, importsArray this !! i = Some t ->
          exists t', importsArray this' !! i = Some t'
            /\ packageName t' = packageName t
            /\ forall k, modules t' !! k
                         = if decide (packageName t = p /\ is_Some (bindings !! k))
                           then None else modules t !! k)
    /\ (forall values', dom values' = dom bindings ->
          removeImports this [mkImport p values'] = this')
    /\ ((forall t k, t ∈ importsArray this -> packageName t = p ->
                     is_Some (bindings !! k) -> modules t !! k = None) ->
        importsArray this' = importsArray this)
    /\ (p ∉ map packageName (importsArray this) ->
        importsArray this' = importsArray this).
Proof.
  intros this p bindings this'. subst this'.
  unfold removeImports, removeImports_item, importsArray at 1 3 5 7; simpl.
  rewrite removeImports_scan_map. simpl.
  split_and!; try done.
  - by rewrite length_map.
  - intros i t Hi. rewrite list_lookup_fmap, Hi. simpl.
    eexists; split; [done|]. split; [by case_decide|].
    intros k. case_decide as Hp.
    + rewrite decide_False by (intros [? ?]; congruence).
      done.
    + rewrite lookup_removeModules; simpl.
      destruct (bindings !! k) eqn:E.
      * rewrite decide_True; [done|]. split; [done|by eexists].
      * rewrite decide_False; [done|]. intros [_ [? ?]]; discriminate.
  - intros values' Hdom. f_equal. f_equal. rewrite removeImports_scan_map. simpl.
    apply map_ext. intros t. case_decide; [done|]. by apply removeModules_dom.
  - intros Habs. rewrite <- (map_id (importsArray this)) at 2.
    apply map_ext_in. intros t Hin. apply list_elem_of_In in Hin.
    case_decide as Hp; [done|].
    apply removeModules_absent. intros k Hk. by apply (Habs t k).
  - intros Hnot. rewrite <- (map_id (importsArray this)) at 2.
    apply map_ext_in. intros t Hin.
    case_decide as Hp; [done|].
    exfalso. apply Hnot. rewrite Hp. apply list_elem_of_In. by apply in_map.
Qed.

Lemma addModules_singleton (t : TypescriptImport) (k v : string) :
  addModules t {[k := v]} = mkImport (packageName t) (<[k:=v]> (modules t)).
Proof.
  apply import_eq; [done|].
  intros k'. rewrite lookup_addModules; simpl.
  destruct (decide (k = k')) as [->|Hne].
  - by rewrite lookup_singleton_eq, lookup_insert_eq.
  - by rewrite lookup_singleton_ne, lookup_insert_ne.
Qed.

Lemma addImports_single (this : TypescriptFile) (item : TypescriptImport) :
  importsArray (addImports this [item])
  = if bool_decide (packageName item ∈ map packageName (importsArray this))
    then map (fun t => if decide (packageName item ≠ packageName t) then t
                       else addModules t (modules item)) (importsArray this)
    else importsArray this ++ [item].
Proof.
  unfold addImports, importsArray at 1; simpl. unfold addImports_item.
  pose proof (addImports_scan_fst item (importsArray this)) as Hfst.
  pose proof (addImports_scan_snd item (importsArray this)) as Hsnd.
  destruct (addImports_scan item (importsArray this)) as [l' found]; simpl in *.
  rewrite <- list_elem_of_In in Hsnd.
  destruct found.
  - by rewrite bool_decide_eq_true_2 by by apply Hsnd.
  - rewrite bool_decide_eq_false_2.
    + rewrite Hfst. f_equal.
      rewrite <- (map_id (importsArray this)) at 2.
      apply map_ext_in. intros t Hin. case_decide as Hp; [done|].
      exfalso. rewrite Hp in Hsnd.
      assert (false = true) by (apply Hsnd, list_elem_of_In; by apply in_map).
      discriminate.
    + intros Hin. apply Hsnd in Hin. discriminate.
Qed.

(** C5. When the statement of package [p] binds [k] (to [v1], say), adding
    [{k: v2}] for [p] leaves that statement in place with [k] bound to
    [v2] and every other key as it was, and adds no statement; when no
    statement is of package [p], adding bindings appends one statement
    holding exactly the supplied bindings. *)
Theorem C5_last_write_wins :
  (forall (this : TypescriptFile) (p k v1 v2 : string) (i : nat) (t : TypescriptImport),
      importsArray this !! i = Some t ->
      packageName t = p ->
      modules t !! k = Some v1 ->
      let this' := addImports this [mkImport p {[k := v2]}] in
      exists t',
        importsArray this' !! i = Some t'
        /\ packageName t' = p
        /\ modules t' !! k = Some v2
        /\ (forall k', k' ≠ k -> modules t' !! k' = modules t !! k')
        /\ length (importsArray this') = length (importsArray this))
  /\ (forall (this : TypescriptFile) (p : string) (bindings : gmap string string),
      p ∉ map packageName (importsArray this) ->
      importsArray (addImports this [mkImport p bindings])
      = importsArray this ++ [mkImport p bindings]).
Proof.
  split.
  - intros this p k v1 v2 i t Hi Hp Hk this'. subst this'.
    rewrite addImports_single; simpl.
    rewrite bool_decide_eq_true_2.
    + rewrite list_lookup_fmap, Hi, length_map; simpl.
      rewrite decide_False by (intros Hne; by apply Hne).
      rewrite addModules_singleton, Hp.
      eexists. split_and!; [done|done| | |done]; simpl.
      * apply lookup_insert_eq.
      * intros k' Hk'. by apply lookup_insert_ne.
    + rewrite <- Hp. apply list_elem_of_In, in_map.
      apply list_elem_of_In. by eapply list_elem_of_lookup_2.
  - intros this p bindings Hnot.
    rewrite addImports_single; simpl.
    by rewrite bool_decide_eq_false_2.
Qed.

(** ** Parsing: body spans and failures *)

Section Parsing.
Variables defaultImport globImport : string.
Variable parse : string -> ParserError + list Statement.
Variable JSON_stringify : ParserError -> string.
Variable super_parseContent : string -> string.

Lemma addImports_declarations (this : TypescriptFile) items :
  declarations (addImports this items) = declarations this.
Proof. reflexivity. Qed.

Lemma removeImports_declarations (this : TypescriptFile) items :
  declarations (removeImports this items) = declarations this.
Proof. reflexivity. Qed.

Lemma parseImportDeclaration_declarations (this : TypescriptFile) d :
  declarations (parseImportDeclaration defaultImport globImport this d)
  = declarations this.
Proof.
  unfold parseImportDeclaration.
  destruct (specifiers d) as [|s specs]; [done|].
  generalize (s :: specs). intros l. revert this.
  induction l as [|c l IH]; intros this; [done|].
  cbn [fold_left]. rewrite IH.
  by destruct (specifierEntry defaultImport globImport c).
Qed.

Lemma parse_loop_declarations (content : string) (body : list Statement)
    (this : TypescriptFile) (spans : list string) :
  declarations this = Some spans ->
  declarations (fold_left (parseContent_item defaultImport globImport content) body this)
  = Some (spans ++ map (spanOf content) (bodyRanges body)).
Proof.
  revert this spans. induction body as [|b body IH]; intros this spans Hd.
  - simpl. by rewrite app_nil_r.
  - cbn [fold_left]. destruct b as [d r|ty r].
    + apply IH. simpl. by rewrite parseImportDeclaration_declarations.
    + erewrite IH; [|simpl; by rewrite Hd].
      simpl. by rewrite <- app_assoc.
Qed.

Lemma perform_declarations (this : TypescriptFile) (op : Operation) :
  match op with ParseItem _ (OtherNode _ _) => False | _ => True end ->
  declarations (perform defaultImport globImport this op) = declarations this.
Proof.
  destruct op as [items|items|adds removes|content [d r|ty r]]; simpl; try done.
  intros _. apply parseImportDeclaration_declarations.
Qed.

(** C8. On content the parser accepts, parsing records as body spans the
    text of the ranges of the statements that are not import
    declarations, in source order, and nothing else; adding, removing
    and setting imports and serializing leave the spans as they are, and
    the text serialized ends with them, in that order. *)
Theorem C8_body_spans_verbatim :
  forall (this : TypescriptFile) (content : string) (body : list Statement),
    parse (super_parseContent content) = inr body ->
    let parsed :=
      (parseContent defaultImport globImport parse JSON_stringify
                    super_parseContent this content).1 in
    declarations parsed
    = Some (map (spanOf (super_parseContent content)) (bodyRanges body))
    /\ (forall items, declarations (addImports parsed items) = declarations parsed)
    /\ (forall items, declarations (removeImports parsed items) = declarations parsed)
    /\ (forall adds removes,
           declarations (setImports parsed adds removes) = declarations parsed)
    /\ (forall localeCompare sortLong EOL (doc : TypescriptFile),
           declarations doc = declarations parsed ->
           let out :=
             getContent defaultImport globImport localeCompare sortLong EOL doc in
           declarations out.1 = declarations parsed
           /\ exists importLines,
               out.2 = join EOL (importLines ++ EmptyString
                         :: map (spanOf (super_parseContent content)) (bodyRanges body))).
Proof.
  intros this content body Hparse parsed.
  assert (declarations parsed
          = Some (map (spanOf (super_parseContent content)) (bodyRanges body))) as Hd.
  { subst parsed. unfold parseContent, parseTypescriptContent.
    rewrite Hparse. cbn [fst].
    by rewrite (parse_loop_declarations _ _ _ []). }
  split_and!; try done.
  intros localeCompare sortLong EOL doc Hdoc out. subst out.
  unfold getContent. rewrite Hdoc, Hd.
  destruct (imports doc) as [l|]; cbn [fst snd withImports declarations];
    (split; [congruence|by eexists]).
Qed.

(** *** The failure path *)

Lemma arrayGet_None {A} (l : list A) (i : Z) :
  arrayGet l i = None <-> ~ (0 <= i < Z.of_nat (length l)).
Proof.
  unfold arrayGet. destruct (Z.ltb_spec i 0) as [Hneg|Hpos].
  - split; [lia|done].
  - rewrite lookup_ge_None. lia.
Qed.

Lemma parseTypescriptContent_failure (this : TypescriptFile) (content : string)
    (error : ParserError) :
  parse content = inl error ->
  parseTypescriptContent parse JSON_stringify this content
  = match quotedLine error content with
    | Some line =>
        inl (Error (parseErrorMessage (file this) (JSON_stringify error) (trim line)))
    | None => inl TypeError
    end.
Proof.
  intros Hparse. unfold parseTypescriptContent, quotedLine, parseErrorMessage.
  rewrite Hparse. by destruct (lineNumber error) as [n|]; [destruct (n =? 0)|].
Qed.

Lemma quotedLine_None (error : ParserError) (content : string) :
  quotedLine error content = None
  <-> exists n, lineNumber error = Some n /\ n ≠ 0
                /\ ~ (1 <= n <= Z.of_nat (length (split LF content))).
Proof.
  unfold quotedLine. destruct (lineNumber error) as [n|].
  - destruct (Z.eqb_spec n 0) as [->|Hn].
    + split; [discriminate|]. intros (n & Hn & Hne & _). congruence.
    + rewrite arrayGet_None. split.
      * intros H. exists n. split_and!; [done|done|lia].
      * intros (n' & Hn' & _ & H). inversion Hn'; subst. lia.
  - split; [discriminate|]. intros (n & Hn & _). discriminate.
Qed.


End Parsing.

(** C10. When the parser rejects the content, [parseTypescriptContent]
    ends in the [Error] it builds exactly when the thrown value has no
    truthy line number or its line number lies between 1 and the number of
    lines of the content; with a line number beyond the number of lines
    the split content has no such entry and the engine's [TypeError] on
    [trim] comes out instead, and there is such an input. *)
Theorem C10_failure_path_partial :
  (forall parse JSON_stringify (this : TypescriptFile) (content : string)
          (error : ParserError),
      parse content = inl error ->
      let result := parseTypescriptContent parse JSON_stringify this content in
      let lines := Z.of_nat (length (split LF content)) in
      ((exists msg, result = inl (Error msg))
       <-> (lineNumber error = None \/ lineNumber error = Some 0
            \/ exists n, lineNumber error = Some n /\ 1 <= n <= lines))
      /\ (result = inl TypeError
          <-> exists n, lineNumber error = Some n /\ n ≠ 0 /\ ~ (1 <= n <= lines))
      /\ (forall n, lineNumber error = Some n -> lines < n ->
            arrayGet (split LF content) (n - 1) = None /\ result = inl TypeError))
  /\ exists parse JSON_stringify this content error n,
      parse content = inl error
      /\ lineNumber error = Some n
      /\ Z.of_nat (length (split LF content)) < n
      /\ parseTypescriptContent parse JSON_stringify this content = inl TypeError.
Proof.
  split.
  - intros parse JSON_stringify this content error Hparse result lines.
    subst result lines.
    rewrite (parseTypescriptContent_failure _ _ _ _ _ Hparse).
    pose proof (quotedLine_None error content) as HN.
    assert ((match quotedLine error content with
             | Some line =>
                 inl (Error (parseErrorMessage (file this) (JSON_stringify error) (trim line)))
             | None => inl TypeError
             end = (inl TypeError : Exception + list Statement))
            <-> quotedLine error content = None) as HT
        by (destruct (quotedLine error content); split; (done || discriminate)).
    split_and!.
    + split.
      * intros [msg Hmsg].
        destruct (quotedLine error content) eqn:E; [|discriminate].
        destruct (lineNumber error) as [n|] eqn:Hn; [|by left].
        destruct (decide (n = 0)) as [->|Hne]; [by right; left|].
        right; right. exists n. split; [done|].
        destruct (decide (1 <= n <= Z.of_nat (length (split LF content)))); [done|].
        assert (Some s = None) by (apply HN; by exists n). discriminate.
      * intros Hcase.
        destruct (quotedLine error content) eqn:E; [by eexists|].
        destruct (proj1 HN eq_refl) as (n & Hn & Hne & Hout).
        destruct Hcase as [H|[H|(n' & H & Hin)]]; rewrite Hn in H;
          [discriminate|congruence|].
        inversion H; subst. tauto.
    + by rewrite HT, HN.
    + intros n Hn Hbig.
      assert (quotedLine error content = None) as E
          by (apply HN; exists n; split_and!; [done|lia|lia]).
      split; [|by apply HT]. apply arrayGet_None. lia.
  - exists rejectAtLine2, message, (mkFile "src/App.tsx" None None),
           ("let a = 1;" +:+ lineSeparator +:+ "let = ;"),
           (mkParserError (Some 2) 4 "Variable declaration expected."), 2.
    by vm_compute.
Qed.

(** C9, on the input where it fails: for content whose second line starts
    after a U+2028 separator the parser reports line 2, the content split
    on line feeds has one entry, and what comes out is the [TypeError], not
    an [Error] with the path, the diagnostic and the line. *)
Theorem C9_line_beyond_content :
  let content := "let a = 1;" +:+ lineSeparator +:+ "let = ;" in
  let this := mkFile "src/App.tsx" None None in
  length (split LF content) = 1%nat
  /\ parseTypescriptContent rejectAtLine2 message this content = inl TypeError
  /\ forall msg, parseTypescriptContent rejectAtLine2 message this content
                 ≠ inl (Error msg).
Proof. by vm_compute. Qed.


(** ** The sort, whatever the comparator *)

Section ArraySortFacts.
Context {A : Type} (comparefn : A -> A -> Z).
Variable mergeRuns : list A -> list A.

Lemma extendRun_app (isDescending : bool) (l : list A) (previousElement : A) :
  (extendRun comparefn isDescending previousElement l).1
  ++ (extendRun comparefn isDescending previousElement l).2 = l.
Proof.
  revert previousElement. induction l as [|x l IH]; intros prev; simpl; [done|].
  destruct (if isDescending then _ else _); [done|].
  specialize (IH x).
  destruct (extendRun comparefn isDescending x l) as [run tail]; simpl in *.
  by rewrite IH.
Qed.

Lemma countAndMakeRun_perm (l : list A) :
  (countAndMakeRun comparefn l).1 ++ (countAndMakeRun comparefn l).2 ≡ₚ l.
Proof.
  destruct l as [|x0 [|x1 rest]]; [done|done|].
  unfold countAndMakeRun.
  pose proof (extendRun_app (comparefn x1 x0 <? 0) rest x1) as Happ.
  destruct (extendRun comparefn (comparefn x1 x0 <? 0) x1 rest) as [run tail].
  cbn [fst snd] in *. subst rest.
  change (x0 :: x1 :: run ++ tail) with ((x0 :: x1 :: run) ++ tail).
  destruct (comparefn x1 x0 <? 0); cbn [fst snd]; [|done].
  apply Permutation_app_tail. symmetry. apply Permutation_rev.
Qed.

Lemma binaryInsert_perm (sorted : list A) (pivot : A) :
  binaryInsert comparefn sorted pivot ≡ₚ sorted ++ [pivot].
Proof.
  unfold binaryInsert.
  generalize (insertionPoint comparefn (length sorted) pivot sorted 0 (length sorted)).
  intros n. rewrite <- (take_drop n sorted) at 3.
  rewrite <- app_assoc. apply Permutation_app_head.
  rewrite Permutation_app_comm. done.
Qed.

Lemma fold_binaryInsert_perm (tail run : list A) :
  fold_left (binaryInsert comparefn) tail run ≡ₚ run ++ tail.
Proof.
  revert run. induction tail as [|x tail IH]; intros run; simpl.
  - by rewrite app_nil_r.
  - rewrite IH, binaryInsert_perm. by rewrite <- app_assoc.
Qed.

Lemma Array_sort_perm (l : list A) :
  (length l < 64)%nat -> Array_sort comparefn mergeRuns l ≡ₚ l.
Proof.
  intros Hshort. unfold Array_sort. destruct (length l <? 2)%nat; [done|].
  destruct (Nat.ltb_spec (length l) 64) as [_|]; [|lia].
  pose proof (countAndMakeRun_perm l) as Hrun.
  destruct (countAndMakeRun comparefn l) as [run tail]; simpl in *.
  by rewrite fold_binaryInsert_perm.
Qed.

(** The binary search on a prefix that falls into the elements the
    pivot does not precede, followed by the elements it precedes. *)
Lemma insertionPoint_partition (pivot : A) (before after : list A) :
  Forall (fun element => (comparefn pivot element <? 0) = false) before ->
  Forall (fun element => (comparefn pivot element <? 0) = true) after ->
  forall (turns left right : nat),
    (left <= length before)%nat -> (length before <= right)%nat ->
    (right <= length (before ++ after))%nat ->
    (right - left <= turns)%nat ->
    insertionPoint comparefn turns pivot (before ++ after) left right
    = length before.
Proof.
  intros Hbefore Hafter turns.
  induction turns as [|turns IH]; intros left right Hl Hr Hlen Hturns;
    cbn [insertionPoint].
  - lia.
  - destruct (Nat.ltb_spec left right) as [Hlt|Hge]; [|lia].
    set (mid := (left + (right - left) / 2)%nat).
    assert (left <= mid < right)%nat as Hmid.
    { subst mid. split; [lia|].
      assert ((right - left) / 2 < right - left)%nat; [|lia].
      apply Nat.div_lt; lia. }
    destruct ((before ++ after) !! mid) as [element|] eqn:E.
    + destruct (comparefn pivot element <? 0) eqn:Hcmp.
      * assert (length before <= mid)%nat.
        { destruct (Nat.le_gt_cases (length before) mid) as [|Hin]; [done|].
          rewrite lookup_app_l in E by done.
          rewrite Forall_lookup in Hbefore.
          specialize (Hbefore _ _ E). simpl in Hbefore. congruence. }
        apply IH; lia.
      * assert (mid < length before)%nat.
        { destruct (Nat.le_gt_cases (length before) mid) as [Hout|]; [|done].
          rewrite lookup_app_r in E by done.
          rewrite Forall_lookup in Hafter.
          specialize (Hafter _ _ E). simpl in Hafter. congruence. }
        apply IH; lia.
    + apply lookup_ge_None in E. lia.
Qed.

Lemma binaryInsert_partition (pivot : A) (before after : list A) :
  Forall (fun element => (comparefn pivot element <? 0) = false) before ->
  Forall (fun element => (comparefn pivot element <? 0) = true) after ->
  binaryInsert comparefn (before ++ after) pivot = before ++ pivot :: after.
Proof.
  intros Hbefore Hafter. unfold binaryInsert.
  rewrite (insertionPoint_partition pivot before after Hbefore Hafter);
    [|lia|rewrite length_app; lia|lia|lia].
  by rewrite take_app_length, drop_app_length.
Qed.

End ArraySortFacts.

(** ** Serialization *)


Lemma filter_none {A} (f : A -> bool) (l : list A) :
  Forall (fun x => f x = false) l -> List.filter f l = [].
Proof. induction 1 as [|x l Hx _ IH]; simpl; [done|]. by rewrite Hx. Qed.

Lemma filter_all {A} (f : A -> bool) (l : list A) :
  Forall (fun x => f x = true) l -> List.filter f l = l.
Proof. induction 1 as [|x l Hx _ IH]; simpl; [done|]. by rewrite Hx, IH. Qed.




Section Serializer.
Variables defaultImport globImport : string.
Variable localeCompare : string -> string -> Z.
Variable sortLong :
  (TypescriptImport -> TypescriptImport -> Z) ->
  list TypescriptImport -> list TypescriptImport.
Variable EOL : string.

(** What ECMAScript asks of [localeCompare]: a consistent comparison. *)
Hypothesis localeCompare_sign :
  forall a b, Z.sgn (localeCompare b a) = - Z.sgn (localeCompare a b).
Hypothesis localeCompare_trans :
  forall a b c, localeCompare a b <= 0 -> localeCompare b c <= 0 ->
                localeCompare a c <= 0.

Local Abbreviation cmp := (compareImports localeCompare).
Local Abbreviation leq := (byName localeCompare).

Lemma cmp_relative (a b : TypescriptImport) :
  isRelative a = true -> cmp a b = 1.
Proof. unfold compareImports, isRelative. by intros ->. Qed.

Lemma cmp_before_relative (a b : TypescriptImport) :
  isRelative a = false -> isRelative b = true -> cmp a b = -1.
Proof. unfold compareImports, isRelative. by intros -> ->. Qed.

Lemma cmp_names (a b : TypescriptImport) :
  isRelative a = false -> isRelative b = false ->
  cmp a b = localeCompare (packageName a) (packageName b).
Proof. unfold compareImports, isRelative. by intros -> ->. Qed.

Lemma leq_flip (a b : TypescriptImport) :
  0 <= localeCompare (packageName b) (packageName a) -> leq a b.
Proof.
  unfold byName. intros H.
  pose proof (localeCompare_sign (packageName a) (packageName b)). lia.
Qed.

Lemma leq_trans (a b c : TypescriptImport) : leq a b -> leq b c -> leq a c.
Proof. unfold byName. apply localeCompare_trans. Qed.

Lemma before_trans (x a e : TypescriptImport) :
  localeCompare (packageName x) (packageName a) < 0 -> leq a e ->
  localeCompare (packageName x) (packageName e) < 0.
Proof.
  unfold byName. intros Hxa Hae.
  destruct (Z.lt_ge_cases (localeCompare (packageName x) (packageName e)) 0)
    as [|Hge]; [done|].
  pose proof (localeCompare_sign (packageName e) (packageName x)) as H1.
  assert (localeCompare (packageName e) (packageName x) <= 0) as Hex by lia.
  pose proof (localeCompare_trans _ _ _ Hae Hex) as Hax.
  pose proof (localeCompare_sign (packageName a) (packageName x)). lia.
Qed.

Lemma Arranged_single (x : TypescriptImport) : Arranged localeCompare [x].
Proof.
  destruct (isRelative x) eqn:E.
  - exists [], [x]. split_and!; [done|constructor| |constructor].
    by repeat constructor.
  - exists [x], []. split_and!; [done| |constructor|].
    + by repeat constructor.
    + by repeat constructor.
Qed.

Lemma Arranged_cons_ascending (prev cur : TypescriptImport) (r : list TypescriptImport) :
  Arranged localeCompare (cur :: r) -> 0 <= cmp cur prev ->
  Arranged localeCompare (prev :: cur :: r).
Proof.
  intros (A & B & Heq & HA & HB & Hs) Hcmp.
  destruct (isRelative prev) eqn:Eprev.
  - (* then [cur] is relative too, and so is all that follows *)
    destruct (isRelative cur) eqn:Ecur;
      [|rewrite (cmp_before_relative _ _ Ecur Eprev) in Hcmp; lia].
    destruct A as [|a A]; simpl in Heq.
    + exists [], (prev :: B). subst B.
      split_and!; [done|constructor|by constructor|constructor].
    + inversion Heq; subst. inversion HA; subst. congruence.
  - destruct A as [|a A]; simpl in Heq.
    + exists [prev], B. subst B.
      split_and!; [done|by repeat constructor|done|by repeat constructor].
    + inversion Heq; subst a r. inversion HA as [|? ? Hcur HA']; subst.
      rewrite (cmp_names _ _ Hcur Eprev) in Hcmp.
      exists (prev :: cur :: A), B.
      split_and!; [done|by constructor|done|].
      constructor; [done|].
      assert (leq prev cur) as Hpc by by apply leq_flip.
      constructor; [done|].
      apply StronglySorted_cons in Hs as [Hall _].
      eapply Forall_impl; [exact Hall|]. intros e He. by eapply leq_trans.
Qed.

Lemma extendRun_ascending (l : list TypescriptImport) (prev : TypescriptImport) :
  Arranged localeCompare (prev :: (extendRun cmp false prev l).1).
Proof.
  revert prev. induction l as [|cur l IH]; intros prev; simpl.
  - apply Arranged_single.
  - destruct (Z.ltb_spec (cmp cur prev) 0) as [|Hge]; simpl.
    + apply Arranged_single.
    + specialize (IH cur).
      destruct (extendRun cmp false cur l) as [run tail]; simpl in *.
      by apply Arranged_cons_ascending.
Qed.

Lemma extendRun_descending (l : list TypescriptImport) (prev : TypescriptImport) :
  isRelative prev = false ->
  let run := (extendRun cmp true prev l).1 in
  Forall (fun t => isRelative t = false) run
  /\ Forall (fun t => leq t prev) run
  /\ StronglySorted leq (rev (prev :: run)).
Proof.
  revert prev. induction l as [|cur l IH]; intros prev Eprev; simpl.
  - split_and!; [constructor|constructor|by repeat constructor].
  - destruct (Z.leb_spec 0 (cmp cur prev)) as [|Hlt]; simpl.
    + split_and!; [constructor|constructor|by repeat constructor].
    + assert (isRelative cur = false) as Ecur.
      { destruct (isRelative cur) eqn:E; [|done].
        rewrite (cmp_relative _ _ E) in Hlt. lia. }
      rewrite (cmp_names _ _ Ecur Eprev) in Hlt.
      specialize (IH cur Ecur).
      destruct (extendRun cmp true cur l) as [run tail]; simpl in *.
      destruct IH as (Hrel & Hle & Hs).
      assert (leq cur prev) as Hcp by (unfold byName; lia).
      assert (Forall (fun t => leq t prev) (cur :: run)) as Hall.
      { constructor; [done|]. eapply Forall_impl; [exact Hle|].
        intros e He. exact (leq_trans _ _ _ He Hcp). }
      split_and!; [by constructor|done|].
      apply StronglySorted_app_2; [|done|by repeat constructor].
      intros x1 x2 Hx1 Hx2. apply list_elem_of_singleton in Hx2 as ->.
      rewrite Forall_forall in Hall. apply Hall.
      rewrite <- (rev_involutive (cur :: run)). simpl.
      apply list_elem_of_In. rewrite <- in_rev. by apply list_elem_of_In.
Qed.

Lemma Arranged_nil : Arranged localeCompare [].
Proof. exists [], []. split_and!; [done|constructor|constructor|constructor]. Qed.

Lemma countAndMakeRun_arranged (l : list TypescriptImport) :
  Arranged localeCompare (countAndMakeRun cmp l).1
  /\ List.filter isRelative ((countAndMakeRun cmp l).1 ++ (countAndMakeRun cmp l).2)
     = List.filter isRelative l.
Proof.
  destruct l as [|x0 [|x1 rest]].
  - split; [apply Arranged_nil|done].
  - split; [apply Arranged_single|done].
  - unfold countAndMakeRun.
    pose proof (extendRun_app cmp (cmp x1 x0 <? 0) rest x1) as Happ.
    destruct (Z.ltb_spec (cmp x1 x0) 0) as [Hlt|Hge].
    + (* a descending run, reversed *)
      assert (isRelative x1 = false) as E1.
      { destruct (isRelative x1) eqn:E; [|done].
        rewrite (cmp_relative _ _ E) in Hlt. lia. }
      pose proof (extendRun_descending rest x1 E1) as (Hrel & Hle & Hs).
      destruct (extendRun cmp true x1 rest) as [run tail].
      cbn [fst snd] in *. subst rest.
      assert (Forall (fun t => isRelative t = false) (rev (x1 :: run))) as Hrev
          by (apply Forall_rev; by constructor).
      assert (List.filter isRelative (rev (x1 :: run)) = []) as Hnone
          by by apply filter_none.
      assert (List.filter isRelative (x1 :: run) = []) as Hnone'
          by (apply filter_none; by constructor).
      change (rev (x0 :: x1 :: run)) with (rev (x1 :: run) ++ [x0]).
      split.
      * destruct (isRelative x0) eqn:E0.
        -- exists (rev (x1 :: run)), [x0].
           split_and!; [done|done|by repeat constructor|done].
        -- rewrite (cmp_names _ _ E1 E0) in Hlt.
           assert (leq x1 x0) as H10 by (unfold byName; lia).
           exists (rev (x1 :: run) ++ [x0]), [].
           split_and!; [by rewrite app_nil_r| |constructor|].
           ++ apply Forall_app. split; [done|by repeat constructor].
           ++ apply StronglySorted_app_2; [|done|by repeat constructor].
              intros a b Ha Hb. apply list_elem_of_singleton in Hb as ->.
              apply list_elem_of_In in Ha. rewrite <- in_rev in Ha.
              destruct Ha as [<-|Ha]; [done|].
              rewrite Forall_forall in Hle.
              apply (leq_trans _ x1); [|done].
              apply Hle. by apply list_elem_of_In.
      * change (x0 :: x1 :: run ++ tail) with ([x0] ++ (x1 :: run) ++ tail).
        rewrite !List.filter_app, Hnone, Hnone'. simpl.
        by destruct (isRelative x0).
    + destruct (extendRun cmp false x1 rest) as [run tail] eqn:Erun.
      cbn [fst snd] in *. subst rest. split; [|done].
      apply Arranged_cons_ascending; [|lia].
      pose proof (extendRun_ascending (run ++ tail) x1) as Hasc.
      by rewrite Erun in Hasc.
Qed.

(** The non-relative block falls into the names up to the pivot's and
    the names after it. *)
Lemma sorted_partition (x : TypescriptImport) (block : list TypescriptImport) :
  isRelative x = false ->
  Forall (fun t => isRelative t = false) block ->
  StronglySorted leq block ->
  exists before after,
    block = before ++ after
    /\ Forall (fun e => (cmp x e <? 0) = false) before
    /\ Forall (fun e => (cmp x e <? 0) = true) after
    /\ Forall (fun e => leq e x) before
    /\ Forall (fun e => leq x e) after.
Proof.
  intros Ex Hrel Hs. induction Hs as [|a block Hs IH Ha].
  - exists [], []. split_and!; [done|constructor..].
  - inversion Hrel as [|? ? Ea Hrel']; subst.
    destruct (Z.ltb_spec (cmp x a) 0) as [Hlt|Hge].
    + exists [], (a :: block).
      rewrite (cmp_names _ _ Ex Ea) in Hlt.
      assert (Forall (fun e => localeCompare (packageName x) (packageName e) < 0)
                     (a :: block)) as Hall.
      { constructor; [done|]. eapply Forall_impl; [exact Ha|].
        intros e He. by eapply before_trans. }
      split_and!; [done|constructor| |constructor|].
      * rewrite Forall_forall in Hall, Hrel |- *. intros e He.
        rewrite (cmp_names _ _ Ex (Hrel e He)).
        apply Z.ltb_lt. by apply Hall.
      * eapply Forall_impl; [exact Hall|]. intros e He. simpl in He.
        unfold byName. lia.
    + destruct (IH Hrel') as (before & after & -> & Hb & Haft & Hle & Hge').
      exists (a :: before), after.
      split_and!; [done| |done| |done].
      * constructor; [|done]. by apply Z.ltb_ge.
      * constructor; [|done]. apply leq_flip.
        by rewrite <- (cmp_names _ _ Ex Ea).
Qed.

Lemma binaryInsert_arranged (sorted : list TypescriptImport) (x : TypescriptImport) :
  Arranged localeCompare sorted ->
  Arranged localeCompare (binaryInsert cmp sorted x)
  /\ List.filter isRelative (binaryInsert cmp sorted x)
     = List.filter isRelative (sorted ++ [x]).
Proof.
  intros (A & B & -> & HA & HB & Hs).
  destruct (isRelative x) eqn:Ex.
  - (* a relative statement goes to the end *)
    assert (binaryInsert cmp (A ++ B) x = (A ++ B) ++ [x]) as ->.
    { rewrite <- (app_nil_r (A ++ B)) at 1.
      apply binaryInsert_partition; [|constructor].
      apply Forall_forall. intros e _. by rewrite (cmp_relative _ _ Ex). }
    split; [|done].
    exists A, (B ++ [x]). split_and!; [by rewrite app_assoc|done| |done].
    apply Forall_app. split; [done|by repeat constructor].
  - destruct (sorted_partition x A Ex HA Hs)
      as (before & after & -> & Hb & Haft & Hle & Hge).
    assert (binaryInsert cmp ((before ++ after) ++ B) x
            = before ++ x :: after ++ B) as ->.
    { rewrite <- app_assoc. apply binaryInsert_partition; [done|].
      apply Forall_app. split; [done|].
      eapply Forall_impl; [exact HB|]. intros e He. simpl in He.
      by rewrite (cmp_before_relative _ _ Ex He). }
    apply Forall_app in HA as [HA1 HA2].
    split.
    + exists (before ++ x :: after), B.
      split_and!; [by rewrite <- app_assoc| |done|].
      * apply Forall_app. split; [done|by constructor].
      * apply StronglySorted_app in Hs as (Hcross & Hs1 & Hs2).
        apply StronglySorted_app_2; [|done|by constructor].
        intros a b Ha Hin. apply elem_of_cons in Hin as [->|Hin].
        -- rewrite Forall_forall in Hle. by apply Hle.
        -- by apply Hcross.
    + rewrite !List.filter_app. simpl. rewrite Ex.
      rewrite !List.filter_app.
      rewrite (filter_none _ _ HA1), (filter_none _ _ HA2). simpl.
      by rewrite app_nil_r.
Qed.

Lemma fold_binaryInsert_arranged (tail run : list TypescriptImport) :
  Arranged localeCompare run ->
  Arranged localeCompare (fold_left (binaryInsert cmp) tail run)
  /\ List.filter isRelative (fold_left (binaryInsert cmp) tail run)
     = List.filter isRelative (run ++ tail).
Proof.
  revert run. induction tail as [|x tail IH]; intros run Hrun; simpl.
  - rewrite app_nil_r. by split.
  - destruct (binaryInsert_arranged run x Hrun) as [Harr Hfil].
    destruct (IH _ Harr) as [Harr' Hfil'].
    split; [done|].
    rewrite Hfil', !List.filter_app, Hfil, !List.filter_app.
    rewrite <- app_assoc. f_equal. simpl. by destruct (isRelative x).
Qed.

Lemma Array_sort_arranged (l : list TypescriptImport) :
  (length l < 64)%nat ->
  Arranged localeCompare (Array_sort cmp (sortLong cmp) l)
  /\ List.filter isRelative (Array_sort cmp (sortLong cmp) l)
     = List.filter isRelative l.
Proof.
  intros Hlen.
  unfold Array_sort. destruct (Nat.ltb_spec (length l) 2) as [Hshort|_].
  - split; [|done].
    destruct l as [|x [|y l]]; [apply Arranged_nil|apply Arranged_single|].
    simpl in Hshort. lia.
  - destruct (Nat.ltb_spec (length l) 64) as [_|]; [|lia].
    destruct (countAndMakeRun_arranged l) as [Hrun Hfil].
    destruct (countAndMakeRun cmp l) as [run tail]; cbn [fst snd] in *.
    destruct (fold_binaryInsert_arranged tail run Hrun) as [Harr Hfil'].
    split; [done|]. by rewrite Hfil'.
Qed.



(** Serializing sorts [this.imports] in place: still one statement per
    package. *)
Lemma getContent_unique (this : TypescriptFile) :
  (length (importsArray this) < 64)%nat ->
  uniquePackages this ->
  uniquePackages (getContent defaultImport globImport localeCompare sortLong EOL this).1.
Proof.
  unfold uniquePackages, getContent, importsArray.
  destruct (imports this) as [l|] eqn:E; simpl; [|by rewrite E].
  intros Hlen Hu.
  assert (map packageName (Array_sort cmp (sortLong cmp) l) ≡ₚ map packageName l)
    as Hperm by (apply Permutation_map; by apply Array_sort_perm).
  by rewrite Hperm.
Qed.

(** *** Rendering *)

Lemma toString_empty_iff (t : TypescriptImport) :
  toString defaultImport globImport t = EmptyString <-> modules t = ∅.
Proof.
  unfold toString.
  destruct (map_to_list (modules t)) as [|entry entries] eqn:E.
  - split; [intros _; by apply map_to_list_empty_iff|done].
  - split.
    + match goal with
      | |- context [match ?c with [] => _ | _ :: _ => _ end] => destruct c
      end; simpl; discriminate.
    + intros Hm. rewrite Hm, map_to_list_empty in E. discriminate.
Qed.

Lemma hasBindings_line (t : TypescriptImport) :
  negb (String.length (toString defaultImport globImport t) =? 0)%nat
  = hasBindings t.
Proof.
  unfold hasBindings. pose proof (toString_empty_iff t) as H.
  destruct (toString defaultImport globImport t) as [|c s] eqn:E; simpl.
  - by rewrite bool_decide_eq_true_2 by by apply H.
  - rewrite bool_decide_eq_false_2; [done|].
    intros Hm. apply H in Hm. discriminate.
Qed.

Lemma importLines_hasBindings (l : list TypescriptImport) :
  List.filter (fun line => negb (String.length line =? 0)%nat)
              (map (toString defaultImport globImport) l)
  = map (toString defaultImport globImport) (List.filter hasBindings l).
Proof.
  induction l as [|t l IH]; simpl; [done|].
  rewrite hasBindings_line, IH. by destruct (hasBindings t).
Qed.

Lemma getContent_text (this : TypescriptFile) :
  (getContent defaultImport globImport localeCompare sortLong EOL this).2
  = join EOL
      (List.filter (fun line => negb (String.length line =? 0)%nat)
                   (map (toString defaultImport globImport) (sortedImports localeCompare sortLong this))
       ++ EmptyString :: default [] (declarations this)).
Proof. unfold getContent, sortedImports. by destruct (imports this). Qed.

(** C6. A statement with an empty binding map renders to the empty
    string, and the import block of the text is made of the renderings
    of the statements that have bindings, none of them empty: a
    statement without bindings adds neither a line nor a blank line. *)
Theorem C6_empty_bindings_render_nothing :
  forall (this : TypescriptFile),
    (forall t, modules t = ∅ -> toString defaultImport globImport t = EmptyString)
    /\ (getContent defaultImport globImport localeCompare sortLong EOL this).2
       = join EOL
           (map (toString defaultImport globImport)
                (List.filter hasBindings (sortedImports localeCompare sortLong this))
            ++ EmptyString :: default [] (declarations this))
    /\ Forall (fun line => line ≠ EmptyString)
              (map (toString defaultImport globImport)
                   (List.filter hasBindings (sortedImports localeCompare sortLong this))).
Proof.
  intros this. split_and!.
  - intros t Ht. by apply toString_empty_iff.
  - by rewrite getContent_text, importLines_hasBindings.
  - apply Forall_forall. intros line Hline.
    apply list_elem_of_In, in_map_iff in Hline as (t & <- & Ht).
    apply filter_In in Ht as [_ Ht]. unfold hasBindings in Ht.
    rewrite toString_empty_iff. intros Hm.
    by rewrite bool_decide_eq_true_2 in Ht.
Qed.


End Serializer.

(** ** The engine on the sample document *)

Lemma compare_not_Gt_trans (a b c : string) :
  String.compare a b ≠ Gt -> String.compare b c ≠ Gt -> String.compare a c ≠ Gt.
Proof.
  revert b c. induction a as [|x a IH]; intros [|y b] [|z c]; simpl; try done.
  unfold Ascii.compare. intros H1 H2.
  destruct (N.compare_spec (N_of_ascii x) (N_of_ascii y)) as [Exy|Lxy|Gxy];
    [| |done];
    (destruct (N.compare_spec (N_of_ascii y) (N_of_ascii z)) as [Eyz|Lyz|Gyz];
     [| |done]);
    destruct (N.compare_spec (N_of_ascii x) (N_of_ascii z)) as [Exz|Lxz|Gxz];
    try done; try lia.
  by apply (IH b c).
Qed.

Lemma codeCompare_sign (a b : string) :
  Z.sgn (codeCompare b a) = - Z.sgn (codeCompare a b).
Proof.
  unfold codeCompare. rewrite (String.compare_antisym a b).
  by destruct (String.compare b a).
Qed.

Lemma codeCompare_trans (a b c : string) :
  codeCompare a b <= 0 -> codeCompare b c <= 0 -> codeCompare a c <= 0.
Proof.
  unfold codeCompare. intros H1 H2.
  pose proof (compare_not_Gt_trans a b c) as H.
  destruct (String.compare a b), (String.compare b c), (String.compare a c);
    try lia; exfalso; by apply H.
Qed.

(** The scenario of the specification: lodash and react first, in the order
    of their names, then the two relative imports as they arrived. *)
Example sample_import_order :
  map packageName (sortedImports codeCompare sortLong_unreached sampleFile)
  = ["lodash"; "react"; "./utils"; "../shared"].
Proof. by vm_compute. Qed.

Example sample_text :
  (getContent "default" "*" codeCompare sortLong_unreached EOL_posix sampleFile).2
  = "import { map } from 'lodash';" +:+ EOL_posix
    +:+ "import React, { useState } from 'react';" +:+ EOL_posix
    +:+ "import Foo from './utils';" +:+ EOL_posix
    +:+ "import * as shared from '../shared';" +:+ EOL_posix
    +:+ EOL_posix +:+ "const x = 1;".
Proof. by vm_compute. Qed.

(** The scenarios of the specification, run. *)
Example scenario_parse :
  imports sampleParsed
  = Some [mkImport "react" {[ "React" := "default"; "useState" := EmptyString ]}]
  /\ declarations sampleParsed = Some ["const x = 1;"]
  /\ (getContent "default" "*" codeCompare sortLong_unreached EOL_posix sampleParsed).2
     = "import React, { useState } from 'react';" +:+ EOL_posix
       +:+ EOL_posix +:+ "const x = 1;".
Proof. by vm_compute. Qed.

Example scenario_add :
  (getContent "default" "*" codeCompare sortLong_unreached EOL_posix
     (addImports
        (addImports (mkFile "src/App.tsx" None None)
                    [mkImport "./local" {[ "Foo" := "default" ]}])
        [mkImport "lodash" {[ "map" := EmptyString ]}])).2
  = "import { map } from 'lodash';" +:+ EOL_posix
    +:+ "import Foo from './local';" +:+ EOL_posix.
Proof. by vm_compute. Qed.

Example scenario_remove :
  (getContent "default" "*" codeCompare sortLong_unreached EOL_posix
     (removeImports sampleParsed
        [mkImport "react" {[ "useState" := EmptyString ]}])).2
  = "import React from 'react';" +:+ EOL_posix
    +:+ EOL_posix +:+ "const x = 1;".
Proof. by vm_compute. Qed.


Lemma C3_witness :
  "Baz" ≠ "Bar"
  /\ imports (parseImportDeclaration "default" "*"
                (mkFile "src/App.tsx" None None)
                (mkImportDeclaration "pkg" [ImportSpecifier "Baz" "Bar"]))
     = Some [mkImport "pkg" {[ "Bar" := "Baz" ]}].
Proof.
  split; [discriminate|].
  apply (C3_encoding_rules "default" "*"). discriminate.
Defined.

Lemma C4_witness :
  importsArray sampleFile !! 2%nat
  = Some (mkImport "react" {[ "React" := "default"; "useState" := EmptyString ]})
  /\ (exists t',
         importsArray (removeImports sampleFile
                         [mkImport "react" {[ "useState" := "anything" ]}]) !! 2%nat
         = Some t'
         /\ modules t' !! "useState" = None
         /\ modules t' !! "React" = Some "default")
  /\ ("vue" ∉ map packageName (importsArray sampleFile))
  /\ importsArray (removeImports sampleFile
                     [mkImport "vue" {[ "ref" := EmptyString ]}])
     = importsArray sampleFile.
Proof.
  destruct (C4_removal_is_keyed sampleFile "react" {[ "useState" := "anything" ]})
    as (_ & _ & _ & Hkeys & _).
  destruct (Hkeys 2%nat _ eq_refl) as (t' & Ht' & _ & Hk).
  destruct (C4_removal_is_keyed sampleFile "vue" {[ "ref" := EmptyString ]})
    as (_ & _ & _ & _ & _ & _ & Hnone).
  assert ("vue" ∉ map packageName (importsArray sampleFile)) as Hvue
      by (apply (bool_decide_unpack _); reflexivity).
  split; [reflexivity|]. split; [|split; [exact Hvue|exact (Hnone Hvue)]].
  exists t'. split; [exact Ht'|].
  split; [rewrite (Hk "useState")|rewrite (Hk "React")]; reflexivity.
Defined.

Lemma C5_witness :
  importsArray sampleFile !! 2%nat
  = Some (mkImport "react" {[ "React" := "default"; "useState" := EmptyString ]})
  /\ (exists t',
         importsArray (addImports sampleFile
                         [mkImport "react" {[ "useState" := "useS" ]}]) !! 2%nat
         = Some t'
         /\ modules t' !! "useState" = Some "useS"
         /\ modules t' !! "React" = Some "default")
  /\ ("vue" ∉ map packageName (importsArray sampleFile))
  /\ importsArray (addImports sampleFile [mkImport "vue" {[ "ref" := EmptyString ]}])
     = importsArray sampleFile ++ [mkImport "vue" {[ "ref" := EmptyString ]}].
Proof.
  destruct C5_last_write_wins as [Hmerge Hnew].
  assert ("vue" ∉ map packageName (importsArray sampleFile)) as Hvue
      by (apply (bool_decide_unpack _); reflexivity).
  split; [reflexivity|].
  split; [|split; [exact Hvue|exact (Hnew sampleFile "vue" _ Hvue)]].
  destruct (Hmerge sampleFile "react" "useState" EmptyString "useS" 2%nat
              (mkImport "react" {[ "React" := "default"; "useState" := EmptyString ]})
              eq_refl eq_refl eq_refl) as (t' & Hthere & _ & Hk & Hother & _).
  exists t'. split; [exact Hthere|]. split; [exact Hk|].
  rewrite (Hother "React"); [reflexivity|discriminate].
Defined.

Lemma C6_witness :
  modules (mkImport "react" ∅) = ∅
  /\ toString "default" "*" (mkImport "react" ∅) = EmptyString.
Proof.
  split; [reflexivity|].
  apply (C6_empty_bindings_render_nothing "default" "*" codeCompare sortLong_unreached EOL_posix sampleFile).
  reflexivity.
Defined.


Lemma C8_witness :
  sampleParse sampleContent = inr
    [ ImportDeclarationNode
        (mkImportDeclaration "react" [ImportDefaultSpecifier "React"])
        (0%nat, 26%nat);
      ImportDeclarationNode
        (mkImportDeclaration "react" [ImportSpecifier "useState" "useState"])
        (27%nat, 60%nat);
      OtherNode "VariableDeclaration" (61%nat, 73%nat) ]
  /\ declarations
       (parseContent "default" "*" sampleParse message (fun content => content)
                     (mkFile "src/App.tsx" None None) sampleContent).1
     = Some ["const x = 1;"].
Proof.
  split; [reflexivity|].
  destruct (C8_body_spans_verbatim "default" "*" sampleParse message
              (fun content => content) (mkFile "src/App.tsx" None None)
              sampleContent _ eq_refl) as (Hspans & _).
  exact Hspans.
Defined.

Lemma C10_witness :
  rejectAtLine2 "let = ;"
  = inl (mkParserError (Some 2) 4 "Variable declaration expected.")
  /\ parseTypescriptContent rejectAtLine2 message
       (mkFile "src/App.tsx" None None) "let = ;"
     = inl TypeError.
Proof.
  split; [reflexivity|].
  destruct C10_failure_path_partial as [Hpath _].
  apply (Hpath rejectAtLine2 message (mkFile "src/App.tsx" None None) "let = ;"
           (mkParserError (Some 2) 4 "Variable declaration expected.") eq_refl).
  exists 2. split; [reflexivity|]. split; [discriminate|]. simpl. lia.
Defined.

(** * More of the code *)

(** ** The registry: order, frame, composition *)

Lemma appendName_idem (names : list string) (p : string) :
  appendName (appendName names p) p = appendName names p.
Proof.
  unfold appendName. destruct (decide (p ∈ names)) as [Hin|Hout].
  - by rewrite decide_True.
  - rewrite decide_True; [done|]. apply elem_of_app. right. by apply list_elem_of_singleton.
Qed.

Lemma addImports_item_names (l : list TypescriptImport) (item : TypescriptImport) :
  map packageName (addImports_item l item)
  = appendName (map packageName l) (packageName item).
Proof.
  unfold addImports_item, appendName.
  pose proof (addImports_scan_names item l) as Hn.
  pose proof (addImports_scan_snd item l) as Hf.
  rewrite <- list_elem_of_In in Hf.
  destruct (addImports_scan item l) as [l' found]; simpl in *.
  destruct found.
  - rewrite decide_True by by apply Hf. done.
  - rewrite decide_False; [by rewrite map_app, Hn|].
    intros Hin. apply Hf in Hin. discriminate.
Qed.

Lemma addImports_names (this : TypescriptFile) (items : list TypescriptImport) :
  map packageName (importsArray (addImports this items))
  = fold_left appendName (map packageName items) (map packageName (importsArray this)).
Proof.
  unfold addImports, importsArray at 1; simpl.
  generalize (importsArray this). induction items as [|item items IH]; intros l; simpl.
  - done.
  - by rewrite IH, addImports_item_names.
Qed.

Lemma fold_appendName_prefix (ps names : list string) :
  names `prefix_of` fold_left appendName ps names.
Proof.
  revert names. induction ps as [|p ps IH]; intros names; simpl; [done|].
  etrans; [|apply IH]. unfold appendName. case_decide; [done|].
  by apply prefix_app_r.
Qed.

Lemma fold_appendName_elem (ps names : list string) (p : string) :
  p ∈ fold_left appendName ps names <-> p ∈ names \/ p ∈ ps.
Proof.
  revert names. induction ps as [|q ps IH]; intros names; simpl.
  - split; [by left|]. intros [H|H]; [done|]. by apply elem_of_nil in H.
  - rewrite IH. unfold appendName. rewrite elem_of_cons.
    case_decide as Hq.
    + split; [tauto|]. intros [H|[->|H]]; tauto.
    + rewrite elem_of_app, list_elem_of_singleton. tauto.
Qed.

Lemma fold_appendName_NoDup (ps names : list string) :
  NoDup names -> NoDup (fold_left appendName ps names).
Proof.
  revert names. induction ps as [|q ps IH]; intros names Hn; simpl; [done|].
  apply IH. unfold appendName. case_decide as Hq; [done|].
  apply NoDup_app. split_and!; [done| |apply NoDup_singleton].
  intros x Hx Hx'. apply list_elem_of_singleton in Hx' as ->. done.
Qed.

(** X1. [addImports] keeps the statements there are in their places and
    pushes the packages that are new after them, each once, in the order
    they first come in the items: the names before are a prefix of the
    names after, every item's package has a statement afterwards, and no
    other package gets one. *)
Theorem addImports_keeps_order :
  forall (this : TypescriptFile) (items : list TypescriptImport),
    let before := map packageName (importsArray this) in
    let after := map packageName (importsArray (addImports this items)) in
    after = fold_left appendName (map packageName items) before
    /\ before `prefix_of` after
    /\ (forall item, item ∈ items -> packageName item ∈ after)
    /\ (forall p, p ∈ after -> p ∈ before \/ p ∈ map packageName items).
Proof.
  intros this items before after. subst before after.
  rewrite addImports_names. split_and!.
  - done.
  - apply fold_appendName_prefix.
  - intros item Hitem. apply fold_appendName_elem. right.
    apply list_elem_of_In, in_map. by apply list_elem_of_In.
  - intros p Hp. by apply fold_appendName_elem.
Qed.

Lemma addImports_item_frame (l : list TypescriptImport) (item t : TypescriptImport)
    (i : nat) :
  l !! i = Some t -> packageName t ≠ packageName item ->
  addImports_item l item !! i = Some t.
Proof.
  intros Hi Hne. unfold addImports_item.
  pose proof (addImports_scan_fst item l) as Hfst.
  destruct (addImports_scan item l) as [l' found]; simpl in *. subst l'.
  assert (map (fun t0 => if decide (packageName item ≠ packageName t0) then t0
                         else addModules t0 (modules item)) l !! i = Some t) as Hmap.
  { rewrite list_lookup_fmap, Hi. simpl. by rewrite decide_True by congruence. }
  destruct found; [done|]. rewrite lookup_app_l; [done|].
  by eapply lookup_lt_Some.
Qed.

Lemma removeImports_fold (items : list TypescriptImport) (l : list TypescriptImport) :
  fold_left removeImports_item items l = map (removeFrom items) l.
Proof.
  revert l. induction items as [|item items IH]; intros l; simpl.
  - by rewrite map_id.
  - rewrite IH. unfold removeImports_item. rewrite removeImports_scan_map, map_map.
    done.
Qed.

Lemma removeFrom_packageName (items : list TypescriptImport) (t : TypescriptImport) :
  packageName (removeFrom items t) = packageName t.
Proof.
  revert t. induction items as [|item items IH]; intros t; simpl; [done|].
  unfold removeFrom in *. simpl. rewrite IH. by case_decide.
Qed.

Lemma removeFrom_lookup (items : list TypescriptImport) (t : TypescriptImport)
    (k : string) :
  modules (removeFrom items t) !! k
  = if decide (Exists (fun item => packageName item = packageName t
                                   /\ is_Some (modules item !! k)) items)
    then None else modules t !! k.
Proof.
  revert t. induction items as [|item items IH]; intros t.
  - unfold removeFrom. cbn [fold_left].
    case_decide as H; [by apply Exists_nil in H|done].
  - unfold removeFrom in *. cbn [fold_left]. rewrite IH. clear IH.
    destruct (decide (packageName item ≠ packageName t)) as [Hne|Heq].
    + destruct (decide (Exists _ items)) as [Hex|Hno].
      * rewrite decide_True; [done|]. by apply Exists_cons_tl.
      * rewrite decide_False; [done|]. rewrite Exists_cons. intros [[? _]|?]; tauto.
    + apply dec_stable in Heq. rewrite lookup_removeModules.
      change (packageName (removeModules t (modules item))) with (packageName t).
      destruct (decide (Exists _ items)) as [Hex|Hno].
      * rewrite decide_True; [done|]. by apply Exists_cons_tl.
      * destruct (modules item !! k) eqn:E.
        -- rewrite decide_True; [done|]. apply Exists_cons_hd.
           split; [done|]. by rewrite E.
        -- rewrite decide_False; [done|]. rewrite Exists_cons.
           intros [[_ [? ?]]|?]; [congruence|tauto].
Qed.

Lemma removeImports_statement (this : TypescriptFile)
    (items : list TypescriptImport) (i : nat) (t : TypescriptImport) :
  importsArray this !! i = Some t ->
  exists t',
    importsArray (removeImports this items) !! i = Some t'
    /\ packageName t' = packageName t
    /\ forall k,
        modules t' !! k
        = if decide (Exists (fun item => packageName item = packageName t
                                         /\ is_Some (modules item !! k)) items)
          then None else modules t !! k.
Proof.
  intros Hi. unfold removeImports, importsArray at 1; simpl.
  rewrite removeImports_fold, list_lookup_fmap, Hi. simpl.
  eexists. split; [done|]. split; [apply removeFrom_packageName|].
  apply removeFrom_lookup.
Qed.

(** X2. Whatever the items, [removeImports] keeps every statement where it
    is, under its package name (a statement is never pruned, even with no
    binding left), and a key of a statement is gone afterwards exactly
    when some item of the statement's package carries it. *)
Theorem removeImports_never_prunes :
  forall (this : TypescriptFile) (items : list TypescriptImport),
    let this' := removeImports this items in
    map packageName (importsArray this') = map packageName (importsArray this)
    /\ forall i t, importsArray this !! i = Some t ->
         exists t',
           importsArray this' !! i = Some t'
           /\ packageName t' = packageName t
           /\ forall k,
               modules t' !! k
               = if decide (Exists (fun item => packageName item = packageName t
                                                /\ is_Some (modules item !! k)) items)
                 then None else modules t !! k.
Proof.
  intros this items this'. subst this'. split; [apply removeImports_names|].
  intros i t Hi. by apply removeImports_statement.
Qed.

(** X3. The statements of the packages that the items do not name come
    out of [addImports] and of [removeImports] as they went in, at the
    same index. *)
Theorem registry_frame :
  forall (this : TypescriptFile) (items : list TypescriptImport)
         (i : nat) (t : TypescriptImport),
    importsArray this !! i = Some t ->
    packageName t ∉ map packageName items ->
    importsArray (addImports this items) !! i = Some t
    /\ importsArray (removeImports this items) !! i = Some t.
Proof.
  intros this items i t Hi Hout. split.
  - unfold addImports, importsArray at 1; simpl.
    revert Hi Hout. generalize (importsArray this).
    induction items as [|item items IH]; intros l Hi Hout; simpl; [done|].
    simpl in Hout. apply not_elem_of_cons in Hout as [Hne Hout].
    apply IH; [|done]. by apply addImports_item_frame.
  - destruct (removeImports_statement this items i t Hi) as (t' & Ht' & Hp & Hk).
    rewrite Ht'. f_equal. apply import_eq; [done|].
    intros k. rewrite Hk. rewrite decide_False; [done|].
    rewrite Exists_exists. intros (item & Hitem & Hpkg & _).
    apply Hout. rewrite <- Hpkg. apply list_elem_of_In, in_map. by apply list_elem_of_In.
Qed.

(** X4. In one call of [setImports] the removals come after the additions:
    a key that an item to remove carries is bound in no statement of that
    package afterwards, also when the same call adds it; and every package
    of the items to add has its statement afterwards, even when the call
    removes all its bindings. *)
Theorem setImports_removal_wins :
  forall (this : TypescriptFile) (importsToAdd importsToRemove : list ITypescriptImport),
    let this' := setImports this importsToAdd importsToRemove in
    (forall r k t',
        r ∈ importsToRemove -> is_Some (i_modules r !! k) ->
        t' ∈ importsArray this' -> packageName t' = i_packageName r ->
        modules t' !! k = None)
    /\ (forall a, a ∈ importsToAdd ->
                  i_packageName a ∈ map packageName (importsArray this')).
Proof.
  intros this adds removes this'. subst this'. unfold setImports. split.
  - intros r k t' Hr Hk Ht' Hp.
    apply list_elem_of_lookup in Ht' as [i Hi].
    unfold removeImports, importsArray at 1 in Hi; simpl in Hi.
    rewrite removeImports_fold, list_lookup_fmap in Hi.
    destruct (importsArray (addImports this (map toImport adds)) !! i) as [t|] eqn:E;
      [|discriminate].
    simpl in Hi. inversion Hi; subst t'. clear Hi.
    rewrite removeFrom_packageName in Hp.
    rewrite removeFrom_lookup, decide_True; [done|].
    apply Exists_exists. exists (toImport r). split_and!; [|done|done].
    apply list_elem_of_In, in_map. by apply list_elem_of_In.
  - intros a Ha. rewrite removeImports_names, addImports_names.
    apply fold_appendName_elem. right. rewrite map_map. simpl.
    apply list_elem_of_In. apply (in_map i_packageName). by apply list_elem_of_In.
Qed.

(** ** Parsing: the statements it leaves *)

Lemma addModules_non_empty (t : TypescriptImport) (new : gmap string string) :
  modules t ≠ ∅ -> modules (addModules t new) ≠ ∅.
Proof.
  intros Hne Hempty. apply map_choose in Hne as (k & v & Hk).
  pose proof (lookup_addModules t new k) as Hl.
  rewrite Hempty, lookup_empty, Hk in Hl. by destruct (new !! k).
Qed.

Lemma addImports_non_empty (this : TypescriptFile) (items : list TypescriptImport) :
  Forall (fun t => modules t ≠ ∅) (importsArray this) ->
  Forall (fun t => modules t ≠ ∅) items ->
  Forall (fun t => modules t ≠ ∅) (importsArray (addImports this items)).
Proof.
  unfold addImports, importsArray at 2; simpl.
  generalize (importsArray this). induction items as [|item items IH]; intros l Hl Hitems;
    simpl; [done|].
  inversion Hitems as [|? ? Hitem Hrest]; subst.
  apply IH; [|done]. unfold addImports_item.
  pose proof (addImports_scan_fst item l) as Hfst.
  destruct (addImports_scan item l) as [l' found]; simpl in *. subst l'.
  assert (Forall (fun t => modules t ≠ ∅)
                 (map (fun t => if decide (packageName item ≠ packageName t) then t
                                else addModules t (modules item)) l)) as Hmap.
  { apply Forall_fmap. eapply Forall_impl; [exact Hl|].
    intros t Ht. simpl. case_decide; [done|]. by apply addModules_non_empty. }
  destruct found; [done|]. apply Forall_app. split; [done|]. by constructor.
Qed.

Section ParsedStatements.
Variables defaultImport globImport : string.
Variable parse : string -> ParserError + list Statement.
Variable JSON_stringify : ParserError -> string.
Variable super_parseContent : string -> string.

Lemma merge_names_present (pkg : string) (specs : list ImportClause)
    (this : TypescriptFile) :
  pkg ∈ map packageName (importsArray this) ->
  map packageName
      (importsArray
         (fold_left
            (fun this specifier =>
               let '(moduleName, importType) :=
                 specifierEntry defaultImport globImport specifier in
               addImports this [mkImport pkg {[moduleName := importType]}])
            specs this))
  = map packageName (importsArray this).
Proof.
  revert this. induction specs as [|s specs IH]; intros this Hin; [done|].
  cbn [fold_left]. destruct (specifierEntry defaultImport globImport s) as [k v].
  assert (map packageName (importsArray (addImports this [mkImport pkg {[k := v]}]))
          = map packageName (importsArray this)) as Hsame.
  { rewrite addImports_names. simpl. unfold appendName. by rewrite decide_True. }
  rewrite IH; [done|]. by rewrite Hsame.
Qed.

Lemma parseImportDeclaration_names (this : TypescriptFile) (d : ImportDeclaration) :
  map packageName (importsArray (parseImportDeclaration defaultImport globImport this d))
  = appendName (map packageName (importsArray this)) (source_value d).
Proof.
  unfold parseImportDeclaration.
  destruct (specifiers d) as [|s specs]; [by rewrite addImports_names|].
  cbn [fold_left]. destruct (specifierEntry defaultImport globImport s) as [k v].
  rewrite merge_names_present; rewrite addImports_names; simpl; [done|].
  unfold appendName. case_decide; [done|].
  apply elem_of_app. right. by apply list_elem_of_singleton.
Qed.

Lemma parseImportDeclaration_non_empty (this : TypescriptFile) (d : ImportDeclaration) :
  Forall (fun t => modules t ≠ ∅) (importsArray this) ->
  Forall (fun t => modules t ≠ ∅)
         (importsArray (parseImportDeclaration defaultImport globImport this d)).
Proof.
  unfold parseImportDeclaration. intros Hthis.
  destruct (specifiers d) as [|s specs].
  - apply addImports_non_empty; [done|]. constructor; [|done]. simpl.
    apply insert_non_empty.
  - generalize (s :: specs). intros l. revert this Hthis.
    induction l as [|c l IH]; intros this Hthis; [done|].
    cbn [fold_left]. apply IH.
    destruct (specifierEntry defaultImport globImport c) as [k v].
    apply addImports_non_empty; [done|]. constructor; [|done]. simpl.
    apply insert_non_empty.
Qed.

Lemma parse_loop_names (content : string) (body : list Statement)
    (this : TypescriptFile) :
  map packageName
      (importsArray (fold_left (parseContent_item defaultImport globImport content)
                               body this))
  = fold_left appendName (importSources body) (map packageName (importsArray this)).
Proof.
  revert this. induction body as [|b body IH]; intros this; [done|].
  cbn [fold_left]. rewrite IH. destruct b as [d r|ty r]; simpl.
  - by rewrite parseImportDeclaration_names.
  - done.
Qed.

Lemma parse_loop_non_empty (content : string) (body : list Statement)
    (this : TypescriptFile) :
  Forall (fun t => modules t ≠ ∅) (importsArray this) ->
  Forall (fun t => modules t ≠ ∅)
         (importsArray (fold_left (parseContent_item defaultImport globImport content)
                                  body this)).
Proof.
  revert this. induction body as [|b body IH]; intros this Hthis; [done|].
  cbn [fold_left]. apply IH. destruct b as [d r|ty r]; simpl; [|done].
  by apply parseImportDeclaration_non_empty.
Qed.

(** X5. On content the parser accepts, the statements parsing leaves are
    those of the sources of the import declarations, one per source, in
    the order the sources first appear in the file, and each holds at
    least one binding; what the document held before the call plays no
    part. *)
Theorem parseContent_statement_order :
  forall (this : TypescriptFile) (content : string) (body : list Statement),
    parse (super_parseContent content) = inr body ->
    let parsed :=
      (parseContent defaultImport globImport parse JSON_stringify
                    super_parseContent this content).1 in
    let names := map packageName (importsArray parsed) in
    names = fold_left appendName (importSources body) []
    /\ NoDup names
    /\ (forall p, p ∈ names <-> p ∈ importSources body)
    /\ Forall (fun t => modules t ≠ ∅) (importsArray parsed).
Proof.
  intros this content body Hparse parsed names. subst parsed names.
  unfold parseContent, parseTypescriptContent. rewrite Hparse. cbn [fst].
  rewrite parse_loop_names. simpl. split_and!.
  - done.
  - apply fold_appendName_NoDup, NoDup_nil_2.
  - intros p. rewrite fold_appendName_elem. split; [|by right].
    intros [H|H]; [by apply elem_of_nil in H|done].
  - apply parse_loop_non_empty. constructor.
Qed.


End ParsedStatements.

(** ** Serializing again *)

Section SerializeTwice.
Variables defaultImport globImport : string.
Variable localeCompare : string -> string -> Z.
Variable sortLong :
  (TypescriptImport -> TypescriptImport -> Z) ->
  list TypescriptImport -> list TypescriptImport.
Variable EOL : string.
Hypothesis localeCompare_sign :
  forall a b, Z.sgn (localeCompare b a) = - Z.sgn (localeCompare a b).
Hypothesis localeCompare_trans :
  forall a b c, localeCompare a b <= 0 -> localeCompare b c <= 0 ->
                localeCompare a c <= 0.

Local Abbreviation cmp := (compareImports localeCompare).

Lemma Arranged_tail (x : TypescriptImport) (l : list TypescriptImport) :
  Arranged localeCompare (x :: l) -> Arranged localeCompare l.
Proof.
  intros (A & B & Heq & HA & HB & Hs).
  destruct A as [|a A]; simpl in Heq.
  - subst B. inversion HB; subst. exists [], l.
    split_and!; [done|constructor|done|constructor].
  - inversion Heq; subst. inversion HA; subst.
    apply StronglySorted_cons in Hs as [_ Hs].
    by exists A, B.
Qed.

Lemma Arranged_ascending (prev cur : TypescriptImport) (l : list TypescriptImport) :
  Arranged localeCompare (prev :: cur :: l) -> 0 <= cmp cur prev.
Proof.
  intros (A & B & Heq & HA & HB & Hs).
  destruct A as [|a [|a' A]]; simpl in Heq.
  - subst B. inversion HB as [|? ? _ HB']; subst. inversion HB' as [|? ? Hcur _]; subst.
    by rewrite (cmp_relative _ _ _ Hcur).
  - injection Heq as Ha HB'. subst a B. inversion HB as [|? ? Hcur _]; subst.
    by rewrite (cmp_relative _ _ _ Hcur).
  - injection Heq as Ha Ha' Hl. subst a a' l.
    inversion HA as [|? ? Hprev HA']; subst.
    inversion HA' as [|? ? Hcur _]; subst.
    rewrite (cmp_names _ _ _ Hcur Hprev).
    apply StronglySorted_cons in Hs as [Hall _].
    inversion Hall as [|? ? Hle _]; subst. unfold byName in Hle.
    pose proof (localeCompare_sign (packageName prev) (packageName cur)). lia.
Qed.

Lemma extendRun_arranged (l : list TypescriptImport) (prev : TypescriptImport) :
  Arranged localeCompare (prev :: l) -> extendRun cmp false prev l = (l, []).
Proof.
  revert prev. induction l as [|cur l IH]; intros prev Harr; simpl; [done|].
  pose proof (Arranged_ascending _ _ _ Harr) as Hge.
  destruct (Z.ltb_spec (cmp cur prev) 0) as [|_]; [lia|].
  by rewrite (IH cur (Arranged_tail _ _ Harr)).
Qed.

(** An arranged array is one ascending run: the sort leaves it as it is. *)
Lemma Array_sort_fixed (l : list TypescriptImport) :
  (length l < 64)%nat -> Arranged localeCompare l ->
  Array_sort cmp (sortLong cmp) l = l.
Proof.
  intros Hlen Harr. unfold Array_sort.
  destruct (length l <? 2)%nat; [done|].
  destruct (Nat.ltb_spec (length l) 64) as [_|]; [|lia].
  destruct l as [|x0 [|x1 rest]]; [done|done|].
  unfold countAndMakeRun.
  pose proof (Arranged_ascending _ _ _ Harr) as Hge.
  destruct (Z.ltb_spec (cmp x1 x0) 0) as [|_]; [lia|].
  by rewrite (extendRun_arranged rest x1 (Arranged_tail _ _ Harr)).
Qed.

(** X6. With fewer than 64 statements and a consistent [localeCompare],
    serializing a document that has just been serialized gives the same
    text and leaves the document as the first call left it. *)
Theorem getContent_twice :
  forall (this : TypescriptFile),
    (length (importsArray this) < 64)%nat ->
    let once := getContent defaultImport globImport localeCompare sortLong EOL this in
    getContent defaultImport globImport localeCompare sortLong EOL once.1 = once.
Proof.
  intros this Hlen once. subst once. unfold getContent, importsArray in *.
  destruct (imports this) as [l|] eqn:E; cbn [fst snd withImports imports declarations].
  - simpl in Hlen.
    destruct (Array_sort_arranged localeCompare sortLong
                localeCompare_sign localeCompare_trans l Hlen) as [Harr _].
    assert (length (Array_sort cmp (sortLong cmp) l) < 64)%nat as Hlen'
        by (by rewrite (Permutation_length (Array_sort_perm _ _ l Hlen))).
    by rewrite (Array_sort_fixed _ Hlen' Harr).
  - by rewrite E.
Qed.

End SerializeTwice.

(** ** Github versioning *)

(** X8. [validateGitRemote] returns a parsed url exactly when the base
    class accepted the input and its host is [github.com], and then it is
    the base class's result; a message of the base class is passed on as
    it is. *)
Theorem validateGitRemote_github_only :
  forall (super_validateGitRemote : string -> string + Result) (input : string),
    (forall result,
        validateGitRemote super_validateGitRemote input = inr result
        <-> super_validateGitRemote input = inr result
            /\ host result = Some "github.com")
    /\ (forall message,
           super_validateGitRemote input = inl message ->
           validateGitRemote super_validateGitRemote input = inl message).
Proof.
  intros super input. unfold validateGitRemote. split.
  - intros result. destruct (super input) as [message|r]; [split; [done|by intros [? _]]|].
    destruct (host r) as [h|] eqn:Hh; simpl.
    + destruct (String.eqb_spec h EmptyString) as [->|Hne]; simpl.
      * split; [done|]. intros [Hr Hhost]. inversion Hr; subst. congruence.
      * case_decide as Hgh.
        -- split; [done|]. intros [Hr Hhost]. inversion Hr; subst. congruence.
        -- split.
           ++ intros Hr. inversion Hr; subst. split; [done|]. by rewrite Hh.
           ++ by intros [-> _].
    + split; [done|]. intros [Hr Hhost]. inversion Hr; subst. congruence.
  - by intros message ->.
Qed.

(** X9. [isEnabled] is true exactly when the remote url is a string that
    is not empty and the base class did not answer it with an empty
    message: the host of the url plays no part, since the messages
    [validateGitRemote] returns for a wrong host are as truthy as a parsed
    url. *)
Theorem isEnabled_ignores_host :
  forall (super_validateGitRemote : string -> string + Result)
         (getGitRemoteOriginUrl : string -> option string) (realpath : string),
    isEnabled super_validateGitRemote getGitRemoteOriginUrl realpath = true
    <-> exists url,
          getGitRemoteOriginUrl realpath = Some url
          /\ url ≠ EmptyString
          /\ super_validateGitRemote url ≠ inl EmptyString.
Proof.
  intros super remote realpath. unfold isEnabled.
  destruct (remote realpath) as [url|]; [|split; [done|by intros (? & ? & _)]].
  assert (truthyValidation (validateGitRemote super url) = true
          <-> super url ≠ inl EmptyString) as Hv.
  { unfold validateGitRemote. destruct (super url) as [message|r]; simpl.
    - destruct (String.eqb_spec message EmptyString) as [->|Hne]; simpl.
      + split; [done|]. by intros H.
      + split; [|done]. intros _ H. by inversion H.
    - split; [done|]. intros _.
      destruct (negb (truthyString (host r))); [done|]. by case_decide. }
  simpl. rewrite andb_true_iff, Hv.
  destruct (String.eqb_spec url EmptyString) as [->|Hne]; simpl.
  - split; [by intros [? _]|]. intros (u & Hu & Hne & _). by inversion Hu; subst.
  - split.
    + intros [_ H]. by exists url.
    + intros (u & Hu & _ & H). inversion Hu; subst. done.
Qed.

(** ** CliService *)

(** X10. [getGlobalCmd] answers [null] exactly when neither the command
    (or it is the empty string) nor [npx] is found; otherwise it answers
    the command itself when it is found, and the command after [npx] only
    when [npx] is found and the command is not; for [npx] itself it never
    answers [npx npx]. *)
Theorem getGlobalCmd_cases :
  forall (which : string -> bool) (cmd : string),
    (getGlobalCmd which cmd = None
     <-> (which cmd = false \/ cmd = EmptyString) /\ which "npx" = false)
    /\ (forall c, getGlobalCmd which cmd = Some c ->
                  (c = cmd /\ which cmd = true)
                  \/ (c = "npx " +:+ cmd /\ which "npx" = true
                      /\ (which cmd = false \/ cmd = EmptyString)))
    /\ getGlobalCmd which "npx" ≠ Some "npx npx".
Proof.
  intros which cmd. unfold getGlobalCmd, getCmd. split_and!.
  - destruct (which cmd) eqn:Hc, (which "npx") eqn:Hn; simpl;
      destruct (String.eqb_spec cmd EmptyString) as [->|Hne]; simpl;
      split; try done; try tauto; intros [[?|?] ?]; done.
  - intros c.
    destruct (which cmd) eqn:Hc, (which "npx") eqn:Hn; simpl;
      destruct (String.eqb_spec cmd EmptyString) as [->|Hne]; simpl;
      intros H; inversion H; subst; tauto.
  - destruct (which "npx"); simpl; done.
Qed.

Lemma string_cons_app (c : ascii) (a b : string) :
  String c (a +:+ b) = String c a +:+ b.
Proof. reflexivity. Qed.

Lemma spanDigits_spec (s digits tail : string) :
  spanDigits s = (digits, tail) ->
  s = digits +:+ tail /\ allDigits digits = true /\ noDigitAhead tail = true.
Proof.
  revert digits tail. induction s as [|c s IH]; intros digits tail; simpl.
  - intros H. by inversion H.
  - destruct (isDigit c) eqn:Hc.
    + destruct (spanDigits s) as [d t]. intros H. inversion H; subst.
      destruct (IH d tail eq_refl) as (-> & Hd & Ht).
      split_and!; [by rewrite <- string_cons_app|simpl; by rewrite Hc|done].
    + intros H. inversion H; subst. split_and!; [done|done|simpl; by rewrite Hc].
Qed.

Lemma spanDigits_app (digits tail : string) :
  allDigits digits = true -> noDigitAhead tail = true ->
  spanDigits (digits +:+ tail) = (digits, tail).
Proof.
  induction digits as [|c digits IH]; intros Hd Ht.
  - change (EmptyString +:+ tail) with tail.
    destruct tail as [|c t]; [done|]. simpl in *.
    by destruct (isDigit c).
  - rewrite <- string_cons_app. simpl in *.
    apply andb_true_iff in Hd as [Hc Hd]. rewrite Hc.
    by rewrite (IH Hd Ht).
Qed.

(** X11. [getNodeVersion] answers the major and minor numbers of a version
    of the form [v<major>.<minor><rest>], whatever follows them, and every
    answer comes from a version of that form; any other value of
    [process.version] makes it throw. *)
Theorem getNodeVersion_major_minor :
  (forall major minor rest,
      major ≠ EmptyString -> minor ≠ EmptyString ->
      allDigits major = true -> allDigits minor = true ->
      noDigitAhead rest = true ->
      getNodeVersion ("v" +:+ major +:+ "." +:+ minor +:+ rest)
      = inr (major +:+ "." +:+ minor))
  /\ (forall version group,
         getNodeVersion version = inr group ->
         exists major minor rest,
           version = "v" +:+ major +:+ "." +:+ minor +:+ rest
           /\ group = major +:+ "." +:+ minor
           /\ major ≠ EmptyString /\ minor ≠ EmptyString
           /\ allDigits major = true /\ allDigits minor = true
           /\ noDigitAhead rest = true)
  /\ (forall version,
         (exists e, getNodeVersion version = inl e)
         <-> getNodeVersion version = inl (Error "Unable to retrieve node version")).
Proof.
  split_and!.
  - intros major minor rest Hmajor Hminor Hd1 Hd2 Hrest.
    unfold getNodeVersion, matchNodeVersion.
    change ("v" +:+ major +:+ "." +:+ minor +:+ rest)
      with (String "v"%char (major +:+ String "."%char (minor +:+ rest))).
    cbn [Ascii.eqb Bool.eqb].
    rewrite (spanDigits_app major (String "."%char (minor +:+ rest)) Hd1 eq_refl).
    destruct major as [|m major]; [done|].
    cbn [Ascii.eqb Bool.eqb].
    rewrite (spanDigits_app minor rest Hd2 Hrest).
    by destruct minor.
  - intros version group. unfold getNodeVersion, matchNodeVersion.
    destruct version as [|c version]; [done|].
    destruct (Ascii.eqb_spec c "v"%char) as [->|]; [|done].
    destruct (spanDigits version) as [major afterMajor] eqn:E1.
    destruct major as [|m major]; [done|].
    destruct afterMajor as [|dot afterDot]; [done|].
    destruct (Ascii.eqb_spec dot "."%char) as [->|]; [|done].
    destruct (spanDigits afterDot) as [minor rest] eqn:E2.
    destruct minor as [|d minor]; [done|].
    intros H. inversion H; subst.
    apply spanDigits_spec in E1 as (-> & Hd1 & _).
    apply spanDigits_spec in E2 as (-> & Hd2 & Hrest).
    exists (String m major), (String d minor), rest.
    split_and!; done.
  - intros version. unfold getNodeVersion.
    destruct (matchNodeVersion version); split; try done.
    + by intros [e H].
    + intros _. by eexists.
Qed.

Lemma childEvents_running (silent : bool) (events : list ChildEvent)
    (output error : string) :
  running events ->
  fold_left (onChildEvent silent) events (mkChildState output error None)
  = mkChildState
      (if silent
       then fold_left (fun acc ev => match ev with
                                     | StdoutData d => acc +:+ String LF d
                                     | _ => acc
                                     end) events output
       else output)
      (if silent
       then fold_left (fun acc ev => match ev with
                                     | StderrData d => acc +:+ String LF d
                                     | _ => acc
                                     end) events error
       else error)
      None.
Proof.
  intros Hrun. revert output error.
  induction Hrun as [|ev events Hev _ IH]; intros output error; simpl.
  - by destruct silent.
  - destruct ev as [d|d|code]; [| |done]; destruct silent; simpl; by rewrite IH.
Qed.

Lemma childEvents_settled (silent : bool) (events : list ChildEvent)
    (st : ChildState) (outcome : Settled) :
  cs_settled st = Some outcome ->
  cs_settled (fold_left (onChildEvent silent) events st) = Some outcome.
Proof.
  revert st. induction events as [|ev events IH]; intros st Hst; simpl; [done|].
  apply IH. destruct ev as [d|d|code]; simpl.
  - by destruct silent.
  - by destruct silent.
  - by rewrite Hst.
Qed.

(** X12. [execCmd] throws on empty arguments whatever the directory; when
    it spawns, the promise stays pending until the child exits, an exit
    with a code that is not zero rejects with what the child wrote on its
    error stream before exiting, any other exit (code 0 or none) resolves
    with what it wrote on its output stream before exiting, and what the
    child writes after the exit changes nothing.  When the call is not
    silent nothing is collected: the promise resolves or rejects with the
    empty string. *)
Theorem execCmd_outcome :
  forall (dirExistsSync : string -> bool) (args : CommandArgs) (cwd : option string)
         (silent : bool),
    (match args with
     | ArgsString s => s = EmptyString
     | ArgsArray l => l = []
     end ->
     forall events,
       execCmd dirExistsSync args cwd silent events
       = inl (Error "Command args must not be empty"))
    /\ forall events call settled,
        execCmd dirExistsSync args cwd silent events = inr (call, settled) ->
        (running events -> settled = None)
        /\ forall before code after,
            events = before ++ ExitEvent code :: after ->
            running before ->
            settled
            = Some (if match code with Some n => negb (n =? 0) | None => false end
                    then Rejected (if silent then stderrOf before else EmptyString)
                    else Resolved (if silent then stdoutOf before else EmptyString)).
Proof.
  intros dirExistsSync args cwd silent. split.
  - intros Hempty events. unfold execCmd.
    destruct args as [s|l]; subst; done.
  - intros events call settled. unfold execCmd.
    destruct (match args with
              | ArgsString s => (String.length s =? 0)%nat
              | ArgsArray l => (length l =? 0)%nat
              end); [done|].
    destruct (truthyString cwd && negb (dirExistsSync (default EmptyString cwd)));
      [done|].
    destruct (match args with
              | ArgsString s => (s, [])
              | ArgsArray l => (default EmptyString (head l), tail l)
              end) as [cmd rest].
    intros H. inversion H; subst. clear H. split.
    + intros Hrun. by rewrite (childEvents_running silent events _ _ Hrun).
    + intros before code after -> Hrun.
      rewrite fold_left_app, (childEvents_running silent before _ _ Hrun).
      cbn [fold_left onChildEvent cs_settled cs_output cs_error].
      erewrite childEvents_settled; [|reflexivity].
      unfold stderrOf, stdoutOf. by destruct silent.
Qed.

(** ** The prompt on an existing file *)

Section PromptFacts.
Variables bgGreenBright greenBright bgRedBright redBright grey : string -> string.
Variable columns : nat.
Variable stdinIsTTY : bool.

Local Abbreviation prompt :=
  (promptOverwriteFileDiff bgGreenBright greenBright bgRedBright redBright grey
                           columns stdinIsTTY).
Local Abbreviation shownDiff :=
  (diffMessage bgGreenBright greenBright bgRedBright redBright grey columns).

Lemma promptLoop_decided (path : string) (diff : list Change)
    (others : list (option string)) (action : option string)
    (rest : list (option string)) (run : PromptRun) :
  stdinIsTTY = true ->
  Forall (fun a => a ≠ Some "cancel" /\ a ≠ Some "overwrite") others ->
  action = Some "cancel" \/ action = Some "overwrite" ->
  promptLoop bgGreenBright greenBright bgRedBright redBright grey columns stdinIsTTY
             path diff (others ++ action :: rest) run
  = mkPromptRun (Returned (bool_decide (action = Some "overwrite")))
                (S (length others + prompts run))
                (shown run
                 ++ concat (replicate (length others)
                              [shownDiff path diff; "Press any key to continue..."])).
Proof.
  intros Htty Hothers Haction. revert run.
  induction Hothers as [|a others [Hc Ho] _ IH]; intros run; simpl.
  - rewrite app_nil_r. destruct Haction as [-> | ->]; reflexivity.
  - rewrite bool_decide_eq_false_2 by done. rewrite bool_decide_eq_false_2 by done.
    rewrite IH, Htty. simpl. f_equal; [f_equal; lia|]. by rewrite <- app_assoc.
Qed.

(** X13. [promptOverwriteFileDiff] answers [false] without a prompt when no
    part of the diff has [added] or [removed] defined, while a part with
    [added: false] is enough to prompt.  On a terminal, every answer that
    is neither a cancel nor an overwrite shows the same diff and asks
    again, and the first cancel or overwrite decides: [true] for an
    overwrite, [false] for a cancel.  Where the input is no terminal the
    first such other answer ends the call in a rejection. *)
Theorem promptOverwriteFileDiff_decides :
  forall (path : string) (diff : list Change),
    (hasDiff diff = false ->
     forall actions, prompt path diff actions = mkPromptRun (Returned false) 0 [])
    /\ (forall part, part ∈ diff -> added part = Some false -> hasDiff diff = true)
    /\ (hasDiff diff = true -> stdinIsTTY = true ->
        forall others action rest,
          Forall (fun a => a ≠ Some "cancel" /\ a ≠ Some "overwrite") others ->
          action = Some "cancel" \/ action = Some "overwrite" ->
          prompt path diff (others ++ action :: rest)
          = mkPromptRun (Returned (bool_decide (action = Some "overwrite")))
                        (S (length others))
                        (concat (replicate (length others)
                                   [shownDiff path diff; "Press any key to continue..."])))
    /\ (hasDiff diff = true -> stdinIsTTY = false ->
        forall action rest,
          action ≠ Some "cancel" -> action ≠ Some "overwrite" ->
          decision (prompt path diff (action :: rest)) = PauseRejected).
Proof.
  intros path diff. unfold promptOverwriteFileDiff. split_and!.
  - by intros ->.
  - intros part Hpart Hadded. unfold hasDiff. apply existsb_exists.
    exists part. split; [by apply list_elem_of_In|].
    rewrite Hadded. by rewrite bool_decide_eq_true_2.
  - intros -> Htty others action rest Hothers Haction. cbn [negb].
    rewrite (promptLoop_decided path diff others action rest _ Htty Hothers Haction).
    cbn [prompts shown app]. f_equal. f_equal. lia.
  - intros -> Htty action rest Hc Ho. cbn [negb promptLoop].
    rewrite bool_decide_eq_false_2 by done. rewrite bool_decide_eq_false_2 by done.
    by rewrite Htty.
Qed.

End PromptFacts.

(** ** The package manager module *)

Section PackageFacts.
Variable Value : Type.
Variable JSON_parse : string -> option Value.
Variable getProperty : Value -> string -> option Value.
Variable truthy : Value -> bool.
Variable resolve : string -> string -> string.
Variable which : string -> bool.
Variable exec : string -> string -> bool.

Local Abbreviation info := (getPackageInfo Value JSON_parse getProperty resolve).
Local Abbreviation installed :=
  (hasInstalledPackage Value JSON_parse getProperty truthy resolve).
Local Abbreviation missing :=
  (notInstalled Value JSON_parse getProperty truthy resolve).
Local Abbreviation install :=
  (installPackages Value JSON_parse getProperty truthy resolve which exec).

Lemma installCommand_npm (packageManager : PackageManager) (kept : list string)
    (dev : bool) (command : string) :
  installCommand which packageManager kept dev = inr command ->
  command = "npm install " +:+ (if dev then " -D " else EmptyString)
            +:+ join " " kept +:+ " --save"
  /\ which "npm" = true
  /\ (packageManager = yarn -> which "yarn" = true).
Proof.
  unfold installCommand.
  destruct packageManager; simpl.
  - destruct (which "yarn"); simpl; [|done].
    destruct (which "npm"); simpl; [|done].
    intros H. by inversion H.
  - destruct (which "npm"); simpl; [|done].
    intros H. by inversion H.
Qed.

(** X14. Whatever the directory holds, the command [installPackages] gives
    to [exec] is the [npm install] one, built from the packages that are
    not installed yet: the case of yarn falls through into the case of
    npm.  So a directory with a [yarn.lock] is installed into with npm,
    and needs both [yarn] and [npm] to be found. *)
Theorem installPackages_always_npm :
  forall (fs : FileSystem) (cache : gmap string (Z * Value)) (dirPath : string)
         (packages : list string) (verbose dev : bool),
    let run := install fs cache dirPath packages verbose dev in
    (forall command dir,
        Exec command dir ∈ run.1.2 ->
        dir = dirPath
        /\ exists kept,
            (missing fs cache dirPath dev packages).2 = inr kept
            /\ kept ≠ []
            /\ command = "npm install " +:+ (if dev then " -D " else EmptyString)
                         +:+ join " " kept +:+ " --save")
    /\ (forall kept,
           run.2 = inr kept -> kept ≠ [] ->
           which "npm" = true
           /\ (existsSync fs (resolve dirPath "yarn.lock") = true ->
               which "yarn" = true)).
Proof.
  intros fs cache dirPath packages verbose dev run. subst run.
  unfold installPackages.
  destruct (missing fs cache dirPath dev packages) as [cache' [e|kept]] eqn:Emiss.
  - simpl. split; [|done]. intros command dir Hin.
    destruct verbose; [|by apply elem_of_nil in Hin].
    apply list_elem_of_singleton in Hin. discriminate.
  - destruct kept as [|p kept].
    + simpl. split; [|by intros kept [= <-] Hne]. intros command dir Hin.
      destruct verbose; simpl in Hin; [|by apply elem_of_nil in Hin].
      apply elem_of_cons in Hin as [Hin|Hin]; [discriminate|].
      apply list_elem_of_singleton in Hin. discriminate.
    + unfold getPackageManager.
      destruct (existsSync fs dirPath); simpl.
      2:{ split; [|done]. intros command dir Hin.
          destruct verbose; [|by apply elem_of_nil in Hin].
          apply list_elem_of_singleton in Hin. discriminate. }
      set (pm := if existsSync fs (resolve dirPath "yarn.lock") then yarn else npm).
      assert ((if existsSync fs (resolve dirPath "yarn.lock")
               then (inr yarn : Raised + PackageManager) else inr npm) = inr pm) as ->
          by (subst pm; by destruct (existsSync fs (resolve dirPath "yarn.lock"))).
      destruct (installCommand which pm (p :: kept) dev) as [e|command] eqn:Ecmd.
      * simpl. split; [|done]. intros c dir Hin.
        destruct verbose; [|by apply elem_of_nil in Hin].
        apply list_elem_of_singleton in Hin. discriminate.
      * apply installCommand_npm in Ecmd as (Hcmd & Hnpm & Hyarn).
        assert (forall (tail : list Effect) c dir,
                   Forall (fun ef => match ef with Exec _ _ => False | _ => True end) tail ->
                   Exec c dir ∈ (if verbose then [Info "Installs packages..."] else [])
                                ++ [Exec command dirPath] ++ tail ->
                   c = command /\ dir = dirPath) as Honly.
        { intros tail c dir Htail Hin.
          apply elem_of_app in Hin as [Hin|Hin].
          - destruct verbose; [|by apply elem_of_nil in Hin].
            apply list_elem_of_singleton in Hin. discriminate.
          - apply elem_of_cons in Hin as [Hin|Hin]; [by inversion Hin|].
            rewrite Forall_forall in Htail. by destruct (Htail _ Hin). }
        destruct (exec command dirPath); simpl; split.
        -- intros c dir Hin.
           apply (Honly (if verbose
                         then [Success ("Package(s) " +:+ dquote +:+ join ", " (p :: kept)
                                        +:+ dquote +:+ " have been installed")]
                         else [])) in Hin as [-> ->].
           ++ split; [done|]. exists (p :: kept). by split_and!.
           ++ destruct verbose; by repeat constructor.
        -- intros kept' _ _. split; [done|]. intros Hlock. apply Hyarn.
           subst pm. by rewrite Hlock.
        -- intros c dir Hin. rewrite <- (app_nil_r [Exec command dirPath]) in Hin.
           apply (Honly []) in Hin as [-> ->]; [|constructor].
           split; [done|]. exists (p :: kept). by split_and!.
        -- done.
Qed.

(** *** The cache of [getPackageInfo] *)

Lemma getPackageInfo_repeat (fs : FileSystem) (cache cache' : gmap string (Z * Value))
    (dirPath property encoding : string) (result : Raised + Value) :
  info fs cache dirPath property encoding = (cache', result) ->
  info fs cache' dirPath property encoding = (cache', result).
Proof.
  unfold getPackageInfo.
  destruct (negb (existsSync fs dirPath)); [by intros [= <- <-]|].
  destruct (getPackageJson resolve fs dirPath) as [e|path]; [by intros [= <- <-]|].
  destruct (negb (truthyString path)); [by intros [= <- <-]|].
  destruct (cache !! dirPath) as [[cachedMtime data]|] eqn:Ecache.
  - destruct (Z.leb_spec (statSync_mtime fs (default EmptyString path)) cachedMtime)
      as [Hle|Hgt].
    + intros [= <- <-]. rewrite Ecache.
      by destruct (Z.leb_spec (statSync_mtime fs (default EmptyString path)) cachedMtime);
        [|lia].
    + destruct (readFileSync fs (default EmptyString path) encoding) as [text|] eqn:Er.
      * destruct (JSON_parse text) as [fresh|] eqn:Ep.
        -- intros [= <- <-]. rewrite lookup_insert_eq, Z.leb_refl. done.
        -- intros [= <- <-]. rewrite Ecache.
           destruct (Z.leb_spec (statSync_mtime fs (default EmptyString path)) cachedMtime);
             [lia|]. by rewrite ?Er, ?Ep.
      * intros [= <- <-]. rewrite Ecache.
        destruct (Z.leb_spec (statSync_mtime fs (default EmptyString path)) cachedMtime);
          [lia|]. by rewrite ?Er.
  - destruct (readFileSync fs (default EmptyString path) encoding) as [text|] eqn:Er.
    + destruct (JSON_parse text) as [fresh|] eqn:Ep.
      * intros [= <- <-]. rewrite lookup_insert_eq, Z.leb_refl. done.
      * intros [= <- <-]. by rewrite Ecache, ?Er, ?Ep.
    + intros [= <- <-]. by rewrite Ecache, ?Er.
Qed.

(** X15. [getPackageInfo] answers from its cache whenever the entry of the
    directory is at least as recent as the [package.json]: the file is
    then not read, whatever it holds by now and whatever the encoding
    asked for.  A call changes no other entry of the cache, and asking
    the same again right after gives the same answer from the cache as
    the first call left it. *)
Theorem getPackageInfo_cache :
  forall (fs : FileSystem) (cache : gmap string (Z * Value))
         (dirPath property encoding : string),
    (forall cachedMtime data,
        cache !! dirPath = Some (cachedMtime, data) ->
        existsSync fs dirPath = true ->
        existsSync fs (resolve dirPath "package.json") = true ->
        resolve dirPath "package.json" ≠ EmptyString ->
        statSync_mtime fs (resolve dirPath "package.json") <= cachedMtime ->
        info fs cache dirPath property encoding
        = (cache, access Value getProperty data property))
    /\ (forall other,
           other ≠ dirPath ->
           (info fs cache dirPath property encoding).1 !! other = cache !! other)
    /\ (forall cache' result,
           info fs cache dirPath property encoding = (cache', result) ->
           info fs cache' dirPath property encoding = (cache', result)).
Proof.
  intros fs cache dirPath property encoding. split_and!.
  - intros cachedMtime data Hc Hdir Hjson Hpath Hle.
    unfold getPackageInfo, getPackageJson. rewrite Hdir, Hjson. simpl.
    destruct (String.eqb_spec (resolve dirPath "package.json") EmptyString); [done|].
    simpl. rewrite Hc.
    by destruct (Z.leb_spec (statSync_mtime fs (resolve dirPath "package.json"))
                            cachedMtime); [|lia].
  - intros other Hother. unfold getPackageInfo.
    destruct (negb (existsSync fs dirPath)); [done|].
    destruct (getPackageJson resolve fs dirPath) as [e|path]; [done|].
    destruct (negb (truthyString path)); [done|].
    destruct (match cache !! dirPath with
              | Some (cachedMtime, data) =>
                  if statSync_mtime fs (default EmptyString path) <=? cachedMtime
                  then Some data else None
              | None => None
              end); [done|].
    destruct (readFileSync fs (default EmptyString path) encoding) as [text|]; [|done].
    destruct (JSON_parse text); [|done]. simpl. by rewrite lookup_insert_ne.
  - intros cache' result Hcall. by apply (getPackageInfo_repeat fs cache).
Qed.

(** *** What [installPackages] installs *)

Lemma hasInstalledPackage_info (fs : FileSystem) (cache : gmap string (Z * Value))
    (dirPath packageName : string) (dev : bool) (encoding : string) :
  installed fs cache dirPath packageName dev encoding
  = ((info fs cache dirPath (if dev then "devDependencies" else "dependencies")
           encoding).1,
     installedIn Value getProperty truthy
       (info fs cache dirPath (if dev then "devDependencies" else "dependencies")
             encoding).2
       packageName).
Proof.
  unfold hasInstalledPackage, installedIn.
  destruct (info fs cache dirPath _ encoding) as [cache' [e|ip]]; simpl; [done|].
  destruct (truthy ip); [|done]. by destruct (getProperty ip packageName).
Qed.

Lemma notInstalled_fixed (fs : FileSystem) (cache : gmap string (Z * Value))
    (dirPath : string) (dev : bool) (answer : Raised + Value)
    (packages : list string) :
  info fs cache dirPath (if dev then "devDependencies" else "dependencies") "utf8"
  = (cache, answer) ->
  (missing fs cache dirPath dev packages).1 = cache
  /\ forall kept,
      (missing fs cache dirPath dev packages).2 = inr kept ->
      kept = List.filter
               (fun q => match installedIn Value getProperty truthy answer q with
                         | inr false => true
                         | _ => false
                         end) packages.
Proof.
  intros Hfix. induction packages as [|p packages [IHc IHk]]; simpl.
  - split; [done|]. by intros kept [= <-].
  - rewrite hasInstalledPackage_info, Hfix. simpl.
    destruct (installedIn Value getProperty truthy answer p) as [e|b]; [done|].
    destruct (missing fs cache dirPath dev packages) as [cache'' [e|kept']];
      simpl in *; [done|].
    split; [done|]. intros kept [= <-].
    rewrite <- (IHk kept' eq_refl). by destruct b.
Qed.

(** X16. When [installPackages] succeeds, the packages it answers with are
    those of the list for which [hasInstalledPackage] answers [false], in
    the order of the list; when there is none it runs no command, and
    otherwise it has run the [npm install] of exactly these packages. *)
Theorem installPackages_installs_missing :
  forall (fs : FileSystem) (cache : gmap string (Z * Value)) (dirPath : string)
         (packages : list string) (verbose dev : bool) (kept : list string),
    let run := install fs cache dirPath packages verbose dev in
    run.2 = inr kept ->
    kept = List.filter
             (reportsMissing Value JSON_parse getProperty truthy resolve
                             fs run.1.1 dirPath dev) packages
    /\ (kept = [] -> forall command dir, Exec command dir ∉ run.1.2)
    /\ (kept ≠ [] ->
        Exec ("npm install " +:+ (if dev then " -D " else EmptyString)
              +:+ join " " kept +:+ " --save") dirPath ∈ run.1.2).
Proof.
  intros fs cache dirPath packages verbose dev kept run. subst run.
  assert (forall cache' kept',
             missing fs cache dirPath dev packages = (cache', inr kept') ->
             kept' = List.filter
                       (reportsMissing Value JSON_parse getProperty truthy resolve
                                       fs cache' dirPath dev) packages) as Hfilter.
  { intros cache' kept' Hmiss. destruct packages as [|p rest].
    - simpl in Hmiss. by inversion Hmiss.
    - cbn [notInstalled] in Hmiss.
      rewrite hasInstalledPackage_info in Hmiss.
      destruct (info fs cache dirPath (if dev then "devDependencies" else "dependencies")
                     "utf8") as [cache1 answer] eqn:Einfo.
      pose proof (getPackageInfo_repeat _ _ _ _ _ _ _ Einfo) as Hfix.
      destruct (notInstalled_fixed fs cache1 dirPath dev answer rest Hfix) as [Hc Hk].
      destruct (notInstalled_fixed fs cache1 dirPath dev answer (p :: rest) Hfix)
        as [_ Hk'].
      cbn [fst snd] in Hmiss.
      destruct (installedIn Value getProperty truthy answer p) as [e|b] eqn:Ep;
        [done|].
      destruct (missing fs cache1 dirPath dev rest) as [cache2 [e|kept2]] eqn:Erest;
        [done|].
      simpl in Hc. subst cache2. inversion Hmiss; subst cache' kept'. clear Hmiss.
      assert (forall q,
                 reportsMissing Value JSON_parse getProperty truthy resolve
                                fs cache1 dirPath dev q
                 = match installedIn Value getProperty truthy answer q with
                   | inr false => true
                   | _ => false
                   end) as Hrep.
      { intros q. unfold reportsMissing. by rewrite hasInstalledPackage_info, Hfix. }
      rewrite (filter_ext _ _ Hrep).
      cbn [List.filter]. rewrite Ep. rewrite <- (Hk kept2 eq_refl).
      by destruct b. }
  unfold installPackages.
  destruct (missing fs cache dirPath dev packages) as [cache' [e|kept']] eqn:Emiss;
    [done|].
  specialize (Hfilter cache' kept' eq_refl).
  destruct kept' as [|p kept'].
  - simpl. intros [= <-]. split_and!; [done| |done].
    intros _ command dir Hin.
    destruct verbose; simpl in Hin; [|by apply elem_of_nil in Hin].
    apply elem_of_cons in Hin as [Hin|Hin]; [discriminate|].
    apply list_elem_of_singleton in Hin. discriminate.
  - destruct (getPackageManager resolve fs dirPath) as [e|pm]; [done|].
    destruct (installCommand which pm (p :: kept') dev) as [e|command] eqn:Ecmd; [done|].
    apply installCommand_npm in Ecmd as (-> & _ & _).
    destruct (exec _ dirPath); [|done].
    simpl. intros [= <-]. split_and!; [done|done|].
    intros _. apply elem_of_app. right. apply elem_of_cons. by left.
Qed.

End PackageFacts.

(** ** The additional facts on samples *)

Lemma addImports_keeps_order_witness :
  mkImport "vue" {[ "ref" := EmptyString ]}
  ∈ [mkImport "vue" {[ "ref" := EmptyString ]};
     mkImport "react" {[ "useMemo" := EmptyString ]}]
  /\ "vue" ∈ map packageName
               (importsArray
                  (addImports sampleFile
                     [mkImport "vue" {[ "ref" := EmptyString ]};
                      mkImport "react" {[ "useMemo" := EmptyString ]}])).
Proof.
  assert (mkImport "vue" {[ "ref" := EmptyString ]}
          ∈ [mkImport "vue" {[ "ref" := EmptyString ]};
             mkImport "react" {[ "useMemo" := EmptyString ]}]) as Hin
      by apply list_elem_of_here.
  split; [exact Hin|].
  destruct (addImports_keeps_order sampleFile
              [mkImport "vue" {[ "ref" := EmptyString ]};
               mkImport "react" {[ "useMemo" := EmptyString ]}])
    as (_ & _ & Hitems & _).
  exact (Hitems _ Hin).
Defined.

Lemma removeImports_never_prunes_witness :
  importsArray sampleFile !! 0%nat = Some (mkImport "lodash" {[ "map" := EmptyString ]})
  /\ exists t',
      importsArray (removeImports sampleFile
                      [mkImport "lodash" {[ "map" := "any" ]}]) !! 0%nat = Some t'
      /\ packageName t' = "lodash"
      /\ modules t' !! "map" = None.
Proof.
  split; [reflexivity|].
  destruct (removeImports_never_prunes sampleFile
              [mkImport "lodash" {[ "map" := "any" ]}]) as [_ Hat].
  destruct (Hat 0%nat _ eq_refl) as (t' & Ht' & Hp & Hk).
  exists t'. split; [exact Ht'|]. split; [exact Hp|].
  rewrite (Hk "map"). reflexivity.
Defined.

Lemma registry_frame_witness :
  importsArray sampleFile !! 0%nat = Some (mkImport "lodash" {[ "map" := EmptyString ]})
  /\ ("lodash" ∉ map packageName [mkImport "react" {[ "React" := EmptyString ]}])
  /\ importsArray (addImports sampleFile
                     [mkImport "react" {[ "React" := EmptyString ]}]) !! 0%nat
     = Some (mkImport "lodash" {[ "map" := EmptyString ]})
  /\ importsArray (removeImports sampleFile
                     [mkImport "react" {[ "React" := EmptyString ]}]) !! 0%nat
     = Some (mkImport "lodash" {[ "map" := EmptyString ]}).
Proof.
  assert ("lodash" ∉ map packageName [mkImport "react" {[ "React" := EmptyString ]}])
    as Hout by (apply (bool_decide_unpack _); reflexivity).
  split; [reflexivity|]. split; [exact Hout|].
  exact (registry_frame sampleFile [mkImport "react" {[ "React" := EmptyString ]}]
           0%nat (mkImport "lodash" {[ "map" := EmptyString ]}) eq_refl Hout).
Defined.

Lemma setImports_removal_wins_witness :
  mkIImport "vue" {[ "ref" := EmptyString ]} ∈ [mkIImport "vue" {[ "ref" := EmptyString ]}]
  /\ "vue" ∈ map packageName
               (importsArray
                  (setImports sampleFile
                     [mkIImport "vue" {[ "ref" := EmptyString ]}]
                     [mkIImport "vue" {[ "ref" := EmptyString ]}])).
Proof.
  assert (mkIImport "vue" {[ "ref" := EmptyString ]}
          ∈ [mkIImport "vue" {[ "ref" := EmptyString ]}]) as Hin
      by apply list_elem_of_here.
  split; [exact Hin|].
  destruct (setImports_removal_wins sampleFile
              [mkIImport "vue" {[ "ref" := EmptyString ]}]
              [mkIImport "vue" {[ "ref" := EmptyString ]}]) as [_ Hadds].
  exact (Hadds _ Hin).
Defined.

Lemma parseContent_statement_order_witness :
  sampleParse sampleContent = inr
    [ ImportDeclarationNode
        (mkImportDeclaration "react" [ImportDefaultSpecifier "React"])
        (0%nat, 26%nat);
      ImportDeclarationNode
        (mkImportDeclaration "react" [ImportSpecifier "useState" "useState"])
        (27%nat, 60%nat);
      OtherNode "VariableDeclaration" (61%nat, 73%nat) ]
  /\ map packageName (importsArray sampleParsed) = ["react"].
Proof.
  split; [reflexivity|].
  destruct (parseContent_statement_order "default" "*" sampleParse message
              (fun content => content) (mkFile "src/App.tsx" None None)
              sampleContent _ eq_refl) as (Hnames & _).
  exact Hnames.
Defined.

Lemma getContent_twice_witness :
  (length (importsArray sampleFile) < 64)%nat
  /\ getContent "default" "*" codeCompare sortLong_unreached EOL_posix
       (getContent "default" "*" codeCompare sortLong_unreached EOL_posix sampleFile).1
     = getContent "default" "*" codeCompare sortLong_unreached EOL_posix sampleFile.
Proof.
  assert (length (importsArray sampleFile) < 64)%nat as Hlen by (simpl; lia).
  split; [exact Hlen|].
  exact (getContent_twice "default" "*" codeCompare sortLong_unreached EOL_posix
           codeCompare_sign codeCompare_trans sampleFile Hlen).
Defined.


Lemma validateGitRemote_github_only_witness :
  sample_validateGitRemote "https://github.com/neilime/reactionable-cli"
  = inr (mkResult (Some "github.com") (Some "neilime") (Some "neilime/reactionable-cli"))
  /\ validateGitRemote sample_validateGitRemote
       "https://github.com/neilime/reactionable-cli"
     = inr (mkResult (Some "github.com") (Some "neilime")
                     (Some "neilime/reactionable-cli")).
Proof.
  split; [reflexivity|].
  apply (validateGitRemote_github_only sample_validateGitRemote
           "https://github.com/neilime/reactionable-cli").
  split; reflexivity.
Defined.

Lemma isEnabled_ignores_host_witness :
  isEnabled sample_validateGitRemote sample_remote "app" = true.
Proof.
  apply (isEnabled_ignores_host sample_validateGitRemote sample_remote "app").
  exists "https://gitlab.com/neilime/reactionable-cli".
  split; [reflexivity|]. split; discriminate.
Defined.

Lemma getGlobalCmd_cases_witness :
  getGlobalCmd sample_which_npx "tsc" = Some "npx tsc"
  /\ (("npx tsc" = "tsc" /\ sample_which_npx "tsc" = true)
      \/ ("npx tsc" = "npx " +:+ "tsc" /\ sample_which_npx "npx" = true
          /\ (sample_which_npx "tsc" = false \/ "tsc" = EmptyString))).
Proof.
  split; [reflexivity|].
  destruct (getGlobalCmd_cases sample_which_npx "tsc") as (_ & Hsome & _).
  exact (Hsome "npx tsc" eq_refl).
Defined.

Lemma getNodeVersion_major_minor_witness :
  getNodeVersion "v16.14.2" = inr "16.14".
Proof.
  destruct getNodeVersion_major_minor as (Hform & _ & _).
  apply (Hform "16" "14" ".2"); (discriminate || reflexivity).
Defined.

Lemma execCmd_outcome_witness :
  execCmd sample_found (ArgsArray ["npm"; "outdated"]) None true
          [StdoutData "{}"; StderrData "warn"; ExitEvent (Some 0); StdoutData "late"]
  = inr (mkSpawnCall "npm" ["outdated"] "pipe" None,
         Some (Resolved (String LF "{}")))
  /\ running [StdoutData "{}"; StderrData "warn"]
  /\ Some (Resolved (String LF "{}"))
     = Some (Resolved (stdoutOf [StdoutData "{}"; StderrData "warn"])).
Proof.
  assert (running [StdoutData "{}"; StderrData "warn"]) as Hrunning
      by (repeat constructor).
  split; [reflexivity|]. split; [exact Hrunning|].
  destruct (execCmd_outcome sample_found (ArgsArray ["npm"; "outdated"]) None true)
    as [_ Hrun].
  destruct (Hrun [StdoutData "{}"; StderrData "warn"; ExitEvent (Some 0); StdoutData "late"]
                 (mkSpawnCall "npm" ["outdated"] "pipe" None)
                 (Some (Resolved (String LF "{}"))) eq_refl) as [_ Hexit].
  exact (Hexit [StdoutData "{}"; StderrData "warn"] (Some 0) [StdoutData "late"]
               eq_refl Hrunning).
Defined.

Lemma promptOverwriteFileDiff_decides_witness :
  hasDiff [mkChange (Some true) None "const x = 1;"] = true
  /\ promptOverwriteFileDiff sample_plain sample_plain sample_plain sample_plain
       sample_plain 80 true "src/App.tsx"
       [mkChange (Some true) None "const x = 1;"]
       ([Some "diff"] ++ Some "overwrite" :: [Some "cancel"])
     = mkPromptRun (Returned true) 2
         (concat (replicate 1
                    [diffMessage sample_plain sample_plain sample_plain sample_plain
                                 sample_plain 80 "src/App.tsx"
                                 [mkChange (Some true) None "const x = 1;"];
                     "Press any key to continue..."])).
Proof.
  split; [reflexivity|].
  destruct (promptOverwriteFileDiff_decides sample_plain sample_plain sample_plain
              sample_plain sample_plain 80 true "src/App.tsx"
              [mkChange (Some true) None "const x = 1;"]) as (_ & _ & Hloop & _).
  apply (Hloop eq_refl eq_refl [Some "diff"] (Some "overwrite") [Some "cancel"]).
  - constructor; [split; discriminate|constructor].
  - right. reflexivity.
Defined.

Lemma installPackages_always_npm_witness :
  (installPackages SampleValue sample_JSON_parse sample_getProperty sample_truthy
     sample_resolve sample_found sample_exec sample_fs ∅ "app"
     ["react"; "lodash"] false false).2 = inr ["lodash"]
  /\ ["lodash"] ≠ []
  /\ existsSync sample_fs (sample_resolve "app" "yarn.lock") = true
  /\ sample_found "npm" = true
  /\ sample_found "yarn" = true.
Proof.
  assert (["lodash"] ≠ ([] : list string)) as Hne by discriminate.
  split; [reflexivity|]. split; [exact Hne|]. split; [reflexivity|].
  destruct (installPackages_always_npm SampleValue sample_JSON_parse sample_getProperty
              sample_truthy sample_resolve sample_found sample_exec sample_fs ∅ "app"
              ["react"; "lodash"] false false) as [_ Hneeds].
  destruct (Hneeds ["lodash"] eq_refl Hne) as [Hnpm Hyarn].
  split; [exact Hnpm|exact (Hyarn eq_refl)].
Defined.

Lemma getPackageInfo_cache_witness :
  (<["app" := (7, SamplePackage [("vue", "^3.0.0")])]> ∅
   : gmap string (Z * SampleValue)) !! "app"
  = Some (7, SamplePackage [("vue", "^3.0.0")])
  /\ statSync_mtime sample_fs (sample_resolve "app" "package.json") <= 7
  /\ getPackageInfo SampleValue sample_JSON_parse sample_getProperty sample_resolve
       sample_fs (<["app" := (7, SamplePackage [("vue", "^3.0.0")])]> ∅)
       "app" "dependencies" "utf8"
     = (<["app" := (7, SamplePackage [("vue", "^3.0.0")])]> ∅,
        inr (SampleVersions [("vue", "^3.0.0")])).
Proof.
  assert (statSync_mtime sample_fs (sample_resolve "app" "package.json") <= 7) as Hle
      by (simpl; lia).
  split; [reflexivity|]. split; [exact Hle|].
  destruct (getPackageInfo_cache SampleValue sample_JSON_parse sample_getProperty
              sample_resolve sample_fs
              (<["app" := (7, SamplePackage [("vue", "^3.0.0")])]> ∅)
              "app" "dependencies" "utf8") as (Hhit & _ & _).
  apply (Hhit 7 (SamplePackage [("vue", "^3.0.0")])); try reflexivity.
  - discriminate.
  - exact Hle.
Defined.

Lemma installPackages_installs_missing_witness :
  (installPackages SampleValue sample_JSON_parse sample_getProperty sample_truthy
     sample_resolve sample_found sample_exec sample_fs ∅ "app"
     ["react"; "lodash"] false false).2 = inr ["lodash"]
  /\ ["lodash"]
     = List.filter
         (reportsMissing SampleValue sample_JSON_parse sample_getProperty sample_truthy
            sample_resolve sample_fs
            (installPackages SampleValue sample_JSON_parse sample_getProperty
               sample_truthy sample_resolve sample_found sample_exec sample_fs ∅ "app"
               ["react"; "lodash"] false false).1.1
            "app" false)
         ["react"; "lodash"].
Proof.
  assert ((installPackages SampleValue sample_JSON_parse sample_getProperty
             sample_truthy sample_resolve sample_found sample_exec sample_fs ∅ "app"
             ["react"; "lodash"] false false).2 = inr ["lodash"]) as Hrun
      by reflexivity.
  split; [exact Hrun|].
  destruct (installPackages_installs_missing SampleValue sample_JSON_parse
              sample_getProperty sample_truthy sample_resolve sample_found sample_exec
              sample_fs ∅ "app" ["react"; "lodash"] false false ["lodash"] Hrun)
    as (Hkept & _ & _).
  exact Hkept.
Defined.
